(** * rabit-inl.h: the typed collective layer of rabit

    A shallow embedding of [rabit/include/rabit/rabit-inl.h]: the type-tag
    registry, the operator catalogue ([op::Max], [op::Min], [op::Sum],
    [op::BitOR]), the bulk reducer [op::Reducer], the collective entry
    points ([Broadcast], [Allreduce], [TrackerPrintf], the checkpoint
    calls) and the serializing reducer.

    Conventions.
    - C++ scalar values are mathematical integers ([Z]) kept in the range
      of their type, with the wrap-around of arithmetic written out, or
      IEEE-754 values ([spec_float]) for [float] and [double].  The data
      model is LP64 with a signed [char].
    - Raw memory handed to the engine is a list of cells; a pointer into a
      byte buffer is an offset.  An access outside a buffer (undefined
      behaviour in C++) and a failed [utils::Assert] both make the model
      return [None].
    - A [for (i = 0; i < n; ++i)] loop is [for_loop n body]. *)

From Stdlib Require Import ZArith Lia List Bool Strings.Byte.
From Stdlib Require Import Floats.SpecFloat.

From stdpp Require Import base option list strings.

Local Open Scope Z_scope.

(** ** Scalar types and their values *)

Inductive int_type := Char | UChar | Int | UInt | Long | ULong.
Inductive float_type := Float | Double.

(** The eight element types for which [GetType] is specialised. *)
Inductive scalar :=
| Integral (t : int_type)
| Floating (t : float_type).

Definition is_signed (t : int_type) : bool :=
  match t with
  | Char | Int | Long => true
  | UChar | UInt | ULong => false
  end.

Definition bit_width (t : int_type) : Z :=
  match t with
  | Char | UChar => 8
  | Int | UInt => 32
  | Long | ULong => 64
  end.

Definition min_value (t : int_type) : Z :=
  if is_signed t then - 2 ^ (bit_width t - 1) else 0.

Definition max_value (t : int_type) : Z :=
  if is_signed t then 2 ^ (bit_width t - 1) - 1 else 2 ^ bit_width t - 1.

Definition in_range (t : int_type) (z : Z) : Prop :=
  min_value t <= z <= max_value t.

(** Conversion of a mathematical result back to the type: reduction modulo
    [2 ^ bit_width], read as two's complement for the signed types. *)
Definition wrap (t : int_type) (z : Z) : Z :=
  if is_signed t
  then (z + 2 ^ (bit_width t - 1)) mod 2 ^ bit_width t - 2 ^ (bit_width t - 1)
  else z mod 2 ^ bit_width t.

(** Precision and exponent bound of the two IEEE-754 binary formats. *)
Definition prec (t : float_type) : Z :=
  match t with Float => 24 | Double => 53 end.

Definition emax (t : float_type) : Z :=
  match t with Float => 128 | Double => 1024 end.

Definition dval (T : scalar) : Type :=
  match T with
  | Integral _ => Z
  | Floating _ => spec_float
  end.

(** [sizeof(DType)] *)
Definition sizeof (T : scalar) : nat :=
  match T with
  | Integral Char | Integral UChar => 1
  | Integral Int | Integral UInt => 4
  | Integral Long | Integral ULong => 8
  | Floating Float => 4
  | Floating Double => 8
  end.

(** The built-in operators [<], [>] and [+] at each scalar type. *)
Definition lt (T : scalar) : dval T -> dval T -> bool :=
  match T with
  | Integral _ => Z.ltb
  | Floating _ => SFltb
  end.

Definition gt (T : scalar) : dval T -> dval T -> bool :=
  match T with
  | Integral _ => Z.gtb
  | Floating _ => fun a b => SFltb b a
  end.

(** [a <= b] at each scalar type; the code does not use it, it states what
    a maximum and a minimum are. *)
Definition leq (T : scalar) : dval T -> dval T -> bool :=
  match T with
  | Integral _ => Z.leb
  | Floating _ => SFleb
  end.

Definition plus (T : scalar) : dval T -> dval T -> dval T :=
  match T with
  | Integral t => fun a b => wrap t (a + b)
  | Floating t => SFadd (prec t) (emax t)
  end.

(** The value written [1] at each type. *)
Definition one (T : scalar) : dval T :=
  match T with
  | Integral _ => 1
  | Floating t => S754_finite false (2 ^ (Z.to_pos (prec t) - 1)) (1 - prec t)
  end.

(** ** namespace engine::mpi: wire tags *)

Inductive DataType :=
| kChar | kUChar | kInt | kUInt | kLong | kULong | kFloat | kDouble.

Inductive OpType := kMax | kMin | kSum | kBitwiseOR.

(** The descriptor handed to a reduction function; the engine creates it
    with the element size of the call. *)
Record MPI_Datatype := { type_size : nat }.

Definition GetType (T : scalar) : DataType :=
  match T with
  | Integral Char => kChar
  | Integral UChar => kUChar
  | Integral Int => kInt
  | Integral UInt => kUInt
  | Integral Long => kLong
  | Integral ULong => kULong
  | Floating Float => kFloat
  | Floating Double => kDouble
  end.

(** ** Loops *)

(** [for_from body i n s]: [n] iterations of [body], the index starting at
    [i]; an iteration that fails aborts the loop. *)
Fixpoint for_from {St : Type} (body : nat -> St -> option St) (i n : nat)
    (s : St) : option St :=
  match n with
  | O => Some s
  | S n' => s' ← body i s; for_from body (S i) n' s'
  end.

Definition for_loop {St : Type} (n : nat) (body : nat -> St -> option St)
    (s : St) : option St :=
  for_from body 0 n s.

(** ** namespace op *)

Module op.

Module Max.
Definition kType : OpType := kMax.
Definition Reduce (T : scalar) (dst src : dval T) : dval T :=
  if lt T dst src then src else dst.
End Max.

Module Min.
Definition kType : OpType := kMin.
Definition Reduce (T : scalar) (dst src : dval T) : dval T :=
  if gt T dst src then src else dst.
End Min.

Module Sum.
Definition kType : OpType := kSum.
Definition Reduce (T : scalar) (dst src : dval T) : dval T :=
  plus T dst src.
End Sum.

Module BitOR.
Definition kType : OpType := kBitwiseOR.
(** [dst |= src] is only well formed at the integer types. *)
Definition Reduce (t : int_type) (dst src : Z) : Z :=
  Z.lor dst src.
End BitOR.

(** The four operator structs, as template arguments. *)
Inductive OP := MaxOp | MinOp | SumOp | BitOROp.

Definition kType (o : OP) : OpType :=
  match o with
  | MaxOp => Max.kType
  | MinOp => Min.kType
  | SumOp => Sum.kType
  | BitOROp => BitOR.kType
  end.

(** [OP::Reduce<DType>]: the instantiation of the member template, [None]
    where it does not compile ([|=] on a floating-point type). *)
Definition Reduce (o : OP) (T : scalar) : option (dval T -> dval T -> dval T) :=
  match o with
  | MaxOp => Some (Max.Reduce T)
  | MinOp => Some (Min.Reduce T)
  | SumOp => Some (Sum.Reduce T)
  | BitOROp =>
      match T return option (dval T -> dval T -> dval T) with
      | Integral t => Some (BitOR.Reduce t)
      | Floating _ => None
      end
  end.

(** [Reducer<OP, DType>(src_, dst_, len, dtype)], for the combine function
    [reduce] of the instantiation.  The state of the loop is the pair of
    buffers. *)
Definition Reducer {A : Type} (reduce : A -> A -> A)
    (src_ dst_ : list A) (len : Z) (dtype : MPI_Datatype)
  : option (list A * list A) :=
  for_loop (Z.to_nat len)
    (fun i '(src, dst) =>
       d ← dst !! i;
       s ← src !! i;
       Some (src, <[i := reduce d s]> dst))
    (src_, dst_).

End op.

(** ** The engine collaborator *)

(** A pointer to a buffer of the caller, as the accessor pair of the buffer
    inside the caller's memory [M]. *)
Record buf_ref (M A : Type) := BufRef {
  deref : M -> list A;
  assign : list A -> M -> M;
}.
Arguments BufRef {M A}.
Arguments deref {M A}.
Arguments assign {M A}.

(** [IEngine::PreprocFunction] applied to its argument: a procedure on the
    caller's memory.  [ReduceFunction]: the signature of [op::Reducer]. *)
Definition PreprocFunction (M : Type) : Type := M -> option M.

Definition ReduceFunction (A : Type) : Type :=
  list A -> list A -> Z -> MPI_Datatype -> option (list A * list A).

(** The signature of [engine::Allreduce_]; a null [prepare_fun] is [None]. *)
Definition Allreduce_sig (M A : Type) : Type :=
  buf_ref M A -> nat -> nat -> ReduceFunction A -> DataType -> OpType ->
  option (PreprocFunction M) -> M -> option M.

(** The signature of [ReduceHandle::Allreduce], the reduction function being
    the one the handle was initialised with. *)
Definition handle_Allreduce_sig (M A : Type) : Type :=
  ReduceFunction A -> buf_ref M A -> nat -> nat ->
  option (PreprocFunction M) -> M -> option M.

(** Modelled from the spec: what one participant sees of one collective
    reduction (sections 2 and 4.3): either the engine holds the result of
    this call from before a recovery, or it does not, and the other
    participants contribute their buffers. *)
Inductive call_env (A : Type) :=
| CachedResult (result : list A)
| NoCachedResult (peers : list (list A)).
Arguments CachedResult {A}.
Arguments NoCachedResult {A}.

Definition invoke {M : Type} (prepare_fun : option (PreprocFunction M)) (m : M)
  : option M :=
  match prepare_fun with
  | Some f => f m
  | None => Some m
  end.

(** Modelled from the spec: the cross-process combination, the local
    buffer with the peers' buffers one after the other, through the
    reduction function of the call. *)
Fixpoint combine_peers {A : Type} (reducer : ReduceFunction A)
    (type_nbytes count : nat) (peers : list (list A)) (buf : list A)
  : option (list A) :=
  match peers with
  | [] => Some buf
  | src :: rest =>
      r ← reducer src buf (Z.of_nat count) {| type_size := type_nbytes |};
      combine_peers reducer type_nbytes count rest r.2
  end.

(** Modelled from the spec: the engine's [allreduce_bytes], whose sources
    are not part of this file.  Section 4.3: [prepare] is invoked exactly
    once, before any network activity, only if no cached replay value
    exists for this call; section 2: the engine then performs the
    cross-process combination and returns the group result into the
    caller's buffer.  With no peer the buffer is returned as it is. *)
Definition engine_Allreduce {M A : Type} (env : call_env A)
    (sendrecvbuf : buf_ref M A) (type_nbytes count : nat)
    (reducer : ReduceFunction A) (prepare_fun : option (PreprocFunction M))
    (m : M) : option M :=
  match env with
  | CachedResult result => Some (assign sendrecvbuf result m)
  | NoCachedResult peers =>
      m1 ← invoke prepare_fun m;
      r ← combine_peers reducer type_nbytes count peers (deref sendrecvbuf m1);
      Some (assign sendrecvbuf r m1)
  end.

(** Modelled from the spec: [engine::Allreduce_] and
    [ReduceHandle::Allreduce] on top of [engine_Allreduce]; the wire tags
    only inform the transport. *)
Definition engine_Allreduce_ {M A : Type} (env : call_env A) : Allreduce_sig M A :=
  fun sendrecvbuf type_nbytes count reducer dtype op prepare_fun =>
    engine_Allreduce env sendrecvbuf type_nbytes count reducer prepare_fun.

Definition ReduceHandle_Allreduce {M A : Type} (env : call_env A)
  : handle_Allreduce_sig M A :=
  fun redfunc sendrecvbuf type_nbytes count prepare_fun =>
    engine_Allreduce env sendrecvbuf type_nbytes count redfunc prepare_fun.

(** Modelled from the spec: a group of one participant; nothing is cached
    and there is no peer. *)
Definition single_participant {A : Type} : call_env A := NoCachedResult [].

(** ** Allreduce *)

(** [Allreduce<OP, DType>(sendrecvbuf, count, prepare_fun, prepare_arg)] over
    an engine [Allreduce_]; [None] when [OP::Reduce<DType>] does not
    compile. *)
Definition Allreduce {M : Type} (o : op.OP) (T : scalar)
    (Allreduce_ : Allreduce_sig M (dval T))
    (sendrecvbuf : buf_ref M (dval T)) (count : nat)
    (prepare_fun : option (PreprocFunction M)) : option (M -> option M) :=
  reduce ← op.Reduce o T;
  Some (Allreduce_ sendrecvbuf (sizeof T) count (op.Reducer reduce)
          (GetType T) (op.kType o) prepare_fun).

(** The memory of a caller that owns one buffer and some private state. *)
Record caller (A U : Type) := Caller {
  sendrecvbuf_ : list A;
  private : U;
}.
Arguments Caller {A U}.
Arguments sendrecvbuf_ {A U}.
Arguments private {A U}.

Definition the_buffer {A U : Type} : buf_ref (caller A U) A :=
  BufRef sendrecvbuf_ (fun b m => Caller b (private m)).

(** ** Bytes and [size_t] *)

Definition byte_of_N (n : N) : byte :=
  default x00 (Byte.of_N (n mod 256)%N).

(** The [k] low-order bytes of [n], least significant first, and back. *)
Fixpoint le_bytes (k : nat) (n : N) : list byte :=
  match k with
  | O => []
  | S k' => byte_of_N n :: le_bytes k' (n / 256)%N
  end.

Fixpoint le_value (bs : list byte) : N :=
  match bs with
  | [] => 0%N
  | b :: rest => (Byte.to_N b + 256 * le_value rest)%N
  end.

Definition sizeof_size_t : nat := 8.

Definition size_t_modulus : N := (2 ^ 64)%N.

(** The object representation of a [size_t] variable. *)
Definition encode_size_t (n : nat) : list byte :=
  le_bytes sizeof_size_t (N.of_nat n).

Definition decode_size_t (bs : list byte) : nat :=
  N.to_nat (le_value (take sizeof_size_t bs)).

(** Multiplication at type [size_t]. *)
Definition size_t_mul (a b : nat) : nat :=
  N.to_nat ((N.of_nat a * N.of_nat b) mod size_t_modulus)%N.

(** A region of memory after the engine stored [received] into it: the
    region keeps its extent. *)
Definition write_region (region received : list byte) : list byte :=
  take (length region) (received ++ drop (length received) region).

(** An element type with a fixed object representation of [elem_size]
    bytes, and the value a [resize] fills with. *)
Class FixedLayout (A : Type) := {
  elem_size : nat;
  value_init : A;
  to_bytes : A -> list byte;
  of_bytes : list byte -> A;
}.

Definition vector_bytes {A : Type} `{FixedLayout A} (v : list A) : list byte :=
  concat (map to_bytes v).

Definition vector_of_bytes {A : Type} `{FixedLayout A} (n : nat) (bs : list byte)
  : list A :=
  map (fun i => of_bytes (take elem_size (drop (i * elem_size) bs))) (seq 0 n).

#[export] Instance char_layout : FixedLayout byte :=
  {| elem_size := 1;
     value_init := x00;
     to_bytes := fun c => [c];
     of_bytes := fun bs => default x00 (head bs) |}.

(** ** Broadcast *)

(** What a call does that a participant can observe. *)
Inductive event :=
| EvBroadcast (size : nat) (root : Z)
| EvResize (n : nat).

Section Broadcast.
(** The engine singleton and its [Broadcast] method, which returns the
    new contents of the [size] bytes at the pointer. *)
Context {E : Type}.
Variable engine_Broadcast : list byte -> nat -> Z -> E -> list byte * E.

(** The state of the process: the engine and the events so far. *)
Definition process : Type := E * list event.

Definition log (ev : event) (w : process) : process := (w.1, w.2 ++ [ev]).

(** [Broadcast(void *sendrecv_data, size_t size, int root)] *)
Definition Broadcast (sendrecv_data : list byte) (size : nat) (root : Z)
    (w : process) : list byte * process :=
  let '(received, e) := engine_Broadcast sendrecv_data size root w.1 in
  (write_region sendrecv_data received, log (EvBroadcast size root) (e, w.2)).

(** [Broadcast(std::vector<DType> *sendrecv_data, int root)] *)
Definition Broadcast_vector {A : Type} `{FixedLayout A}
    (sendrecv_data : list A) (root : Z) (w : process) : list A * process :=
  let size := length sendrecv_data in
  let '(size_, w) := Broadcast (encode_size_t size) sizeof_size_t root w in
  let size := decode_size_t size_ in
  let '(sendrecv_data, w) :=
    if decide (length sendrecv_data ≠ size)
    then (resize size value_init sendrecv_data, log (EvResize size) w)
    else (sendrecv_data, w) in
  if decide (size ≠ 0%nat)
  then
    let '(payload, w) :=
      Broadcast (vector_bytes sendrecv_data) (size_t_mul size elem_size) root w in
    (vector_of_bytes size payload, w)
  else (sendrecv_data, w).

(** [Broadcast(std::string *sendrecv_data, int root)] *)
Definition Broadcast_string (sendrecv_data : list byte) (root : Z)
    (w : process) : list byte * process :=
  let size := length sendrecv_data in
  let '(size_, w) := Broadcast (encode_size_t size) sizeof_size_t root w in
  let size := decode_size_t size_ in
  let '(sendrecv_data, w) :=
    if decide (length sendrecv_data ≠ size)
    then (resize size x00 sendrecv_data, log (EvResize size) w)
    else (sendrecv_data, w) in
  if decide (size ≠ 0%nat)
  then Broadcast sendrecv_data (size_t_mul size 1) root w
  else (sendrecv_data, w).

(** The length every participant agrees on: what the first broadcast
    leaves in the local [size] variable of a container of [n] elements. *)
Definition broadcast_length (n : nat) (root : Z) (w : process) : nat :=
  decode_size_t (Broadcast (encode_size_t n) sizeof_size_t root w).1.
End Broadcast.

(** An engine for [Broadcast] on a participant that is not the root: its
    state is the list of the messages the roots send, in call order. *)
Definition receiving_engine (sendrecv_data : list byte) (size : nat) (root : Z)
    (inbox : list (list byte)) : list byte * list (list byte) :=
  match inbox with
  | [] => (sendrecv_data, [])
  | msg :: rest => (msg, rest)
  end.

(** ** TrackerPrintf *)

(** [vsnprintf(buf, n, fmt, args)] of the C library, [formatted] being the
    complete output of the conversion: at most [n - 1] of its characters
    are stored, followed by a terminating NUL. *)
Definition vsnprintf (buf : list byte) (n : nat) (formatted : list byte)
  : list byte :=
  match n with
  | O => buf
  | S n' =>
      let k := Nat.min (length formatted) n' in
      take k formatted ++ [x00] ++ drop (S k) buf
  end.

Section TrackerPrintf.
(** The formatting of the C library and the engine's [TrackerPrint]. *)
Context {Fmt Args R : Type}.
Variable format : Fmt -> Args -> list byte.
Variable engine_TrackerPrint : list byte -> R.

Definition TrackerPrint (msg : list byte) : R := engine_TrackerPrint msg.

Definition kPrintBuffer : nat := Z.to_nat (Z.shiftl 1 10).

Definition TrackerPrintf (fmt : Fmt) (args : Args) : R :=
  let msg := replicate kPrintBuffer x00 in
  let msg := vsnprintf msg kPrintBuffer (format fmt args) in
  TrackerPrint msg.
End TrackerPrintf.

(** ** Checkpoints *)

(** The four checkpoint methods of the engine singleton. *)
Record IEngine (E Model : Type) := {
  engine_LoadCheckPoint : Model -> option Model -> E -> Z * Model * option Model * E;
  engine_CheckPoint : Model -> option Model -> E -> E;
  engine_LazyCheckPoint : Model -> E -> E;
  engine_VersionNumber : E -> Z;
}.
Arguments engine_LoadCheckPoint {E Model}.
Arguments engine_CheckPoint {E Model}.
Arguments engine_LazyCheckPoint {E Model}.
Arguments engine_VersionNumber {E Model}.

Section CheckPoint.
Context {E Model : Type}.
Variable engine : IEngine E Model.

(** A null [local_model] is [None]. *)
Definition LoadCheckPoint (global_model : Model) (local_model : option Model)
    (e : E) : Z * Model * option Model * E :=
  engine_LoadCheckPoint engine global_model local_model e.

Definition CheckPoint (global_model : Model) (local_model : option Model)
    (e : E) : E :=
  engine_CheckPoint engine global_model local_model e.

Definition LazyCheckPoint (global_model : Model) (e : E) : E :=
  engine_LazyCheckPoint engine global_model e.

Definition VersionNumber (e : E) : Z :=
  engine_VersionNumber engine e.

(** A checkpointing call of the application, and a run of such calls. *)
Inductive checkpoint_call :=
| CallCheckPoint (global_model : Model) (local_model : option Model)
| CallLazyCheckPoint (global_model : Model).

Definition do_call (e : E) (c : checkpoint_call) : E :=
  match c with
  | CallCheckPoint g l => CheckPoint g l e
  | CallLazyCheckPoint g => LazyCheckPoint g e
  end.

Definition do_calls (cs : list checkpoint_call) (e : E) : E :=
  fold_left do_call cs e.
End CheckPoint.

(** Modelled from the spec: the checkpoint state the engine holds (section
    3, CheckpointState) and its four methods (section 4.6), whose sources
    are not part of this file.  [CheckPoint] commits both models and
    increments the version; [LazyCheckPoint] records the global model and
    increments the version; [LoadCheckPoint] returns the version of the
    checkpoint it restored, 0 if none existed. *)
Record CheckpointState (Model : Type) := {
  version : Z;
  committed_global : option Model;
  committed_local : option Model;
}.
Arguments version {Model}.
Arguments committed_global {Model}.
Arguments committed_local {Model}.

(** Modelled from the spec: the state before any checkpoint. *)
Definition no_checkpoint {Model : Type} : CheckpointState Model :=
  {| version := 0; committed_global := None; committed_local := None |}.

(** Modelled from the spec: the four methods on [CheckpointState]. *)
Definition spec_engine (Model : Type) : IEngine (CheckpointState Model) Model :=
  {| engine_LoadCheckPoint := fun g l st =>
       match committed_global st with
       | None => (0, g, l, st)
       | Some g' =>
           (version st, g',
            match committed_local st with Some l' => Some l' | None => l end,
            st)
       end;
     engine_CheckPoint := fun g l st =>
       {| version := version st + 1;
          committed_global := Some g;
          committed_local := l |};
     engine_LazyCheckPoint := fun g st =>
       {| version := version st + 1;
          committed_global := Some g;
          committed_local := committed_local st |};
     engine_VersionNumber := version |}.

(** ** Streams over a fixed slice of memory *)

Local Open Scope nat_scope.

(** Modelled from the spec: [utils::MemoryFixSizeBuffer], declared in a
    header that is not part of this file: a stream over the [buffer_size_]
    bytes at [p_buffer_] with a cursor.  Sections 4.4 and 7: an encoding
    that exceeds the slot and a decode past the declared size are fatal,
    never a truncation.  The pointer [p_buffer_] is an offset into the
    memory the stream was opened on. *)
Record MemoryFixSizeBuffer := {
  p_buffer_ : nat;
  buffer_size_ : nat;
  curr_ptr_ : nat;
}.

Definition new_MemoryFixSizeBuffer (p_buffer buffer_size : nat)
  : MemoryFixSizeBuffer :=
  {| p_buffer_ := p_buffer; buffer_size_ := buffer_size; curr_ptr_ := 0 |}.

Definition advance (n : nat) (fs : MemoryFixSizeBuffer) : MemoryFixSizeBuffer :=
  {| p_buffer_ := p_buffer_ fs;
     buffer_size_ := buffer_size_ fs;
     curr_ptr_ := curr_ptr_ fs + n |}.

Definition Seek (pos : nat) (fs : MemoryFixSizeBuffer) : MemoryFixSizeBuffer :=
  {| p_buffer_ := p_buffer_ fs;
     buffer_size_ := buffer_size_ fs;
     curr_ptr_ := pos |}.

(** [mem] with [data] stored at offset [off]. *)
Definition splice (mem : list byte) (off : nat) (data : list byte) : list byte :=
  take off mem ++ data ++ drop (off + length data) mem.

(** Modelled from the spec: [Read] and [Write] of the stream.  A read or a
    write that passes the end of the slice is fatal; a write of no bytes
    returns at once. *)
Definition Read (mem : list byte) (size : nat) (fs : MemoryFixSizeBuffer)
  : option (list byte * MemoryFixSizeBuffer) :=
  if decide (curr_ptr_ fs + size ≤ buffer_size_ fs)
  then
    if decide (p_buffer_ fs + curr_ptr_ fs + size ≤ length mem)
    then Some (take size (drop (p_buffer_ fs + curr_ptr_ fs) mem), advance size fs)
    else None
  else None.

Definition Write (mem : list byte) (data : list byte) (fs : MemoryFixSizeBuffer)
  : option (list byte * MemoryFixSizeBuffer) :=
  if decide (length data = 0) then Some (mem, fs)
  else if decide (curr_ptr_ fs + length data ≤ buffer_size_ fs)
  then
    if decide (p_buffer_ fs + curr_ptr_ fs + length data ≤ length mem)
    then Some (splice mem (p_buffer_ fs + curr_ptr_ fs) data,
               advance (length data) fs)
    else None
  else None.

(** ** Serializable objects *)

(** Modelled from the spec: what a [Load] does with its source, a sequence
    of [Read] calls, each continuing with the bytes it obtained. *)
Inductive Reader (R : Type) :=
| Return (r : R)
| ReadThen (size : nat) (k : list byte -> Reader R).
Arguments Return {R}.
Arguments ReadThen {R}.

(** Modelled from the spec: the capability set of an element type of the
    serializing reducer (section 3, SerializableObject): default
    construction, [Load(source)] on an existing object, [Save(sink)] as the
    sequence of its [Write] calls, and [Reduce(src, max_nbyte)]. *)
Class Serializable (DType : Type) := {
  construct : DType;
  Load : DType -> Reader DType;
  Save : DType -> list (list byte);
  Reduce : DType -> DType -> nat -> DType;
}.

Fixpoint run_reader {R : Type} (mem : list byte) (rd : Reader R)
    (fs : MemoryFixSizeBuffer) : option (R * MemoryFixSizeBuffer) :=
  match rd with
  | Return r => Some (r, fs)
  | ReadThen size k =>
      '(bs, fs) ← Read mem size fs;
      run_reader mem (k bs) fs
  end.

Fixpoint run_writes (mem : list byte) (chunks : list (list byte))
    (fs : MemoryFixSizeBuffer) : option (list byte * MemoryFixSizeBuffer) :=
  match chunks with
  | [] => Some (mem, fs)
  | data :: rest =>
      '(mem, fs) ← Write mem data fs;
      run_writes mem rest fs
  end.

(** [ReduceHandle::TypeSize] *)
Definition TypeSize (dtype : MPI_Datatype) : nat := type_size dtype.

(** The offset [i * nbytes] of a slot where [i] and [nbytes] are both
    [int]: the product is taken in [int], with the wrap-around of the type;
    a negative offset points in front of the buffer, which no pointer into
    it may do (undefined behaviour). *)
Definition int_offset (i nbytes : nat) : option nat :=
  let off := wrap Int (Z.of_nat i * Z.of_nat nbytes) in
  if decide (0 ≤ off)%Z then Some (Z.to_nat off) else None.

(** ** The serializing reducer *)

Section SerializeReducer.
Context {DType : Type} `{Serializable DType}.

(** [SerializeReducerFunc_<DType>(src_, dst_, len_, dtype)].  The state of
    the loop is the two buffers and the two temporaries.  Both [i] and
    [nbytes] are [int], so the offset of slot [i] is [int_offset i nbytes]
    (the source writes the product twice, once for each buffer). *)
Definition SerializeReducerFunc_ : ReduceFunction byte :=
  fun src_ dst_ len_ dtype =>
    let nbytes := TypeSize dtype in
    r ← for_loop (Z.to_nat len_)
          (fun i '(src, dst, tsrc, tdst) =>
             off ← int_offset i nbytes;
             let fsrc := new_MemoryFixSizeBuffer off nbytes in
             let fdst := new_MemoryFixSizeBuffer off nbytes in
             '(tsrc, _) ← run_reader src (Load tsrc) fsrc;
             '(tdst, fdst) ← run_reader dst (Load tdst) fdst;
             let tdst := Reduce tdst tsrc nbytes in
             let fdst := Seek 0 fdst in
             '(dst, _) ← run_writes dst (Save tdst) fdst;
             Some (src, dst, tsrc, tdst))
          (src_, dst_, construct, construct);
    Some (r.1.1.1, r.1.1.2).

(** The memory [SerializeReducer<DType>::Allreduce] works on: the
    caller's objects and private state, the member [buffer_], and the
    events so far. *)
Context {U : Type}.

Inductive step :=
| DoResize (n : nat)
| DoPrepare
| DoSave (i : nat)
| DoLoad (i : nat).

Record memory := Memory {
  user : caller DType U;
  buffer_ : list byte;
  trace : list step;
}.

Definition sendrecvobj (m : memory) : list DType := sendrecvbuf_ (user m).

Definition set_user (u : caller DType U) (m : memory) : memory :=
  Memory u (buffer_ m) (trace m).

Definition set_buffer (b : list byte) (m : memory) : memory :=
  Memory (user m) b (trace m).

Definition set_obj (i : nat) (obj : DType) (m : memory) : memory :=
  set_user (Caller (<[i := obj]> (sendrecvobj m)) (private (user m))) m.

Definition record (s : step) (m : memory) : memory :=
  Memory (user m) (buffer_ m) (trace m ++ [s]).

(** [BeginPtr(buffer_)] *)
Definition BeginPtr_buffer : buf_ref memory byte := BufRef buffer_ set_buffer.

(** [struct SerializeReduceClosure]; [sendrecvobj] and [p_buffer] point
    into the memory. *)
Record SerializeReduceClosure := {
  max_nbyte : nat;
  count : nat;
  prepare_fun : option (PreprocFunction (caller DType U));
}.

Definition Run (c : SerializeReduceClosure) : PreprocFunction memory :=
  fun m =>
    m ← match prepare_fun c with
        | Some f => u ← f (user m); Some (record DoPrepare (set_user u m))
        | None => Some m
        end;
    for_loop (count c)
      (fun i m =>
         let fs := new_MemoryFixSizeBuffer (i * max_nbyte c) (max_nbyte c) in
         obj ← sendrecvobj m !! i;
         '(buf, _) ← run_writes (buffer_ m) (Save obj) fs;
         Some (record (DoSave i) (set_buffer buf m)))
      m.

Definition Invoke (c : SerializeReduceClosure) : PreprocFunction memory :=
  Run c.

(** [SerializeReducer<DType>::Allreduce(sendrecvobj, max_nbyte, count,
    prepare_fun, prepare_arg)] over the [Allreduce] of its handle, which
    the constructor initialised with [SerializeReducerFunc_<DType>]. *)
Definition SerializeReducer_Allreduce
    (handle_Allreduce : handle_Allreduce_sig memory byte)
    (max_nbyte count : nat)
    (prepare_fun : option (PreprocFunction (caller DType U)))
    (m : memory) : option memory :=
  let n := size_t_mul max_nbyte count in
  let m := record (DoResize n) (set_buffer (resize n x00 (buffer_ m)) m) in
  let c := {| max_nbyte := max_nbyte; count := count;
              prepare_fun := prepare_fun |} in
  m ← handle_Allreduce SerializeReducerFunc_ BeginPtr_buffer max_nbyte count
        (Some (Invoke c)) m;
  for_loop count
    (fun i m =>
       let fs := new_MemoryFixSizeBuffer (i * max_nbyte) max_nbyte in
       obj ← sendrecvobj m !! i;
       '(obj, _) ← run_reader (buffer_ m) (Load obj) fs;
       Some (record (DoLoad i) (set_obj i obj m)))
    m.

(** What the trace gains when the closure runs. *)
Definition closure_steps
    (prepare_fun : option (PreprocFunction (caller DType U))) (count : nat)
  : list step :=
  match prepare_fun with Some _ => [DoPrepare] | None => [] end
  ++ map DoSave (seq 0 count).
End SerializeReducer.

(** ** The serializing reducer, slot by slot

    The reading of section 4.4 of the specification: the buffer is a
    sequence of slots of [nbytes] bytes; [Save] encodes an object into a
    slot from its first byte, [Load] decodes a slot.  The theorems below
    relate the pointer-and-cursor code above to these definitions. *)

Definition slot (nbytes i : nat) (mem : list byte) : list byte :=
  take nbytes (drop (i * nbytes) mem).

Definition slots (nbytes n : nat) (mem : list byte) : list (list byte) :=
  map (fun i => slot nbytes i mem) (seq 0 n).

Section Slots.
Context {DType : Type} `{Serializable DType}.

(** The encoded form must fit the slot; the bytes of the slot behind it
    stay as they are. *)
Definition encode (obj : DType) (s : list byte) : option (list byte) :=
  let data := concat (Save obj) in
  if decide (length data ≤ length s)
  then Some (data ++ drop (length data) s)
  else None.

Definition decode (obj : DType) (s : list byte) : option DType :=
  fst <$> run_reader s (Load obj) (new_MemoryFixSizeBuffer 0 (length s)).

Fixpoint encode_objs (objs : list DType) (ss : list (list byte))
  : option (list (list byte)) :=
  match objs, ss with
  | obj :: objs', s :: ss' =>
      s' ← encode obj s;
      rest ← encode_objs objs' ss';
      Some (s' :: rest)
  | _, _ => Some []
  end.

Fixpoint decode_objs (objs : list DType) (ss : list (list byte))
  : option (list DType) :=
  match objs, ss with
  | obj :: objs', s :: ss' =>
      obj' ← decode obj s;
      rest ← decode_objs objs' ss';
      Some (obj' :: rest)
  | _, _ => Some []
  end.

(** For each slot: decode both sides, [dst.Reduce(src, nbytes)], encode
    the result; the two temporaries pass from one slot to the next. *)
Fixpoint reduce_slots (nbytes : nat) (tsrc tdst : DType)
    (src_slots dst_slots : list (list byte)) : option (list (list byte)) :=
  match src_slots, dst_slots with
  | s :: src_slots', d :: dst_slots' =>
      tsrc ← decode tsrc s;
      tdst ← decode tdst d;
      let tdst := Reduce tdst tsrc nbytes in
      d' ← encode tdst d;
      rest ← reduce_slots nbytes tsrc tdst src_slots' dst_slots';
      Some (d' :: rest)
  | _, _ => Some []
  end.

(** The round-trip law [decode(encode(x)) = x] at slot size [nbytes]:
    whenever an object has been encoded into a slot of that size, it is
    decoded from the slot, whatever the receiving object held.  The law
    does not say that every object fits the slot. *)
Definition round_trip (nbytes : nat) : Prop :=
  ∀ (x y : DType) (s s' : list byte),
    length s = nbytes →
    encode x s = Some s' → decode y s' = Some x.
End Slots.

(** ** Instances used in the examples *)

(** An object that is one byte, reduced to the larger of the two. *)
#[export] Instance byte_object : Serializable byte :=
  {| construct := x00;
     Load := fun _ => ReadThen 1 (fun bs => Return (default x00 (head bs)));
     Save := fun b => [[b]];
     Reduce := fun dst src _ =>
       if (Byte.to_N dst <? Byte.to_N src)%N then src else dst |}.

(** An object of variable length: at most 255 bytes, encoded as their
    number in one byte followed by the bytes; reduced to the longer of the
    two. *)
#[export] Instance blob_object : Serializable (list byte) | 100 :=
  {| construct := [];
     Load := fun _ =>
       ReadThen 1 (fun h =>
         ReadThen (N.to_nat (Byte.to_N (default x00 (head h)))) Return);
     Save := fun b => [[default x00 (Byte.of_N (N.of_nat (length b)))]; b];
     Reduce := fun dst src _ =>
       if length dst <? length src then src else dst |}.

(** A prepare function that overwrites the first element of the caller's
    buffer. *)
Definition prepare_first {A U : Type} (x : A) : PreprocFunction (caller A U) :=
  fun m => Some (Caller (<[0 := x]> (sendrecvbuf_ m)) (private m)).

(** The doubles 1, 2^53 and -2^53, and the floats 1, 2^24 and -2^24. *)
Definition big (t : float_type) : spec_float :=
  S754_finite false (2 ^ (Z.to_pos (prec t) - 1)) 1.

Definition minus_big (t : float_type) : spec_float :=
  S754_finite true (2 ^ (Z.to_pos (prec t) - 1)) 1.

(** The values a variable of each scalar type can hold. *)
Definition is_value (T : scalar) : dval T → Prop :=
  match T with
  | Integral t => in_range t
  | Floating t => fun x => valid_binary (prec t) (emax t) x = true
  end.

(** ** The C++11 overloads and the fixed-layout reducer *)

(** [InvokeLambda_(fun)]: the call of the [std::function] behind the
    pointer.  An empty [std::function] is [None]; calling it throws. *)
Definition InvokeLambda_ {M : Type} (fun_ : option (PreprocFunction M))
  : PreprocFunction M :=
  fun m => f ← fun_; f m.

(** [Allreduce<OP, DType>(sendrecvbuf, count, std::function<void()>)]: the
    engine always receives the non-null [InvokeLambda_]. *)
Definition Allreduce_cxx11 {M : Type} (o : op.OP) (T : scalar)
    (Allreduce_ : Allreduce_sig M (dval T))
    (sendrecvbuf : buf_ref M (dval T)) (count : nat)
    (prepare_fun : option (PreprocFunction M)) : option (M -> option M) :=
  reduce ← op.Reduce o T;
  Some (Allreduce_ sendrecvbuf (sizeof T) count (op.Reducer reduce)
          (GetType T) (op.kType o) (Some (InvokeLambda_ prepare_fun))).

(** [std::memcpy] out of and into a byte buffer at an offset. *)
Definition memcpy_from (mem : list byte) (off n : nat) : option (list byte) :=
  if decide (off + n ≤ length mem) then Some (take n (drop off mem)) else None.

Definition memcpy_to (mem : list byte) (off : nat) (data : list byte)
  : option (list byte) :=
  if decide (off + length data ≤ length mem)
  then Some (splice mem off data)
  else None.

(** The object representation of every value has [sizeof(DType)] bytes and
    determines the value. *)
Definition layout_laws (A : Type) `{FixedLayout A} : Prop :=
  (∀ x : A, length (to_bytes x) = elem_size)
  ∧ (∀ x : A, of_bytes (to_bytes x) = x).

Section Reducer.
Context {DType : Type} `{FixedLayout DType}.
(** The member [DType::Reduce(const DType &src)], as [reduce dst src]. *)
Variable reduce : DType -> DType -> DType.

(** [ReducerFunc_<DType>(src_, dst_, len_, dtype)] *)
Definition ReducerFunc_ : ReduceFunction byte :=
  fun src_ dst_ len_ dtype =>
    let kUnit := elem_size in
    for_loop (Z.to_nat len_)
      (fun i '(psrc, pdst) =>
         tdst ← of_bytes <$> memcpy_from pdst (i * kUnit) kUnit;
         tsrc ← of_bytes <$> memcpy_from psrc (i * kUnit) kUnit;
         let tdst := reduce tdst tsrc in
         pdst ← memcpy_to pdst (i * kUnit) (to_bytes tdst);
         Some (psrc, pdst))
      (src_, dst_).

(** A [DType *] handed to the engine as raw memory. *)
Definition as_bytes {M : Type} (sendrecvbuf : buf_ref M DType) : buf_ref M byte :=
  BufRef (fun m => vector_bytes (deref sendrecvbuf m))
         (fun bs m =>
            assign sendrecvbuf
              (vector_of_bytes (length (deref sendrecvbuf m)) bs) m).

(** [Reducer<DType>::Allreduce(sendrecvbuf, count, prepare_fun, prepare_arg)]
    over the [Allreduce] of its handle, which the constructor initialised
    with [ReducerFunc_<DType>] and [sizeof(DType)]. *)
Definition Reducer_Allreduce {M : Type}
    (handle_Allreduce : handle_Allreduce_sig M byte)
    (sendrecvbuf : buf_ref M DType) (count : nat)
    (prepare_fun : option (PreprocFunction M)) : M -> option M :=
  handle_Allreduce ReducerFunc_ (as_bytes sendrecvbuf) elem_size count prepare_fun.

(** [Reducer<DType>::Allreduce(sendrecvbuf, count, std::function<void()>)] *)
Definition Reducer_Allreduce_cxx11 {M : Type}
    (handle_Allreduce : handle_Allreduce_sig M byte)
    (sendrecvbuf : buf_ref M DType) (count : nat)
    (prepare_fun : option (PreprocFunction M)) : M -> option M :=
  Reducer_Allreduce handle_Allreduce sendrecvbuf count
    (Some (InvokeLambda_ prepare_fun)).
End Reducer.

(** [SerializeReducer<DType>::Allreduce(sendrecvobj, max_nbytes, count,
    std::function<void()>)] *)
Definition SerializeReducer_Allreduce_cxx11 {DType : Type} `{Serializable DType}
    {U : Type} (handle_Allreduce : handle_Allreduce_sig memory byte)
    (max_nbytes count : nat)
    (prepare_fun : option (PreprocFunction (caller DType U)))
  : memory -> option memory :=
  SerializeReducer_Allreduce handle_Allreduce max_nbytes count
    (Some (InvokeLambda_ prepare_fun)).

(** The larger of two bytes, as the [Reduce] member of a one-byte type. *)
Definition byte_max (dst src : byte) : byte :=
  if (Byte.to_N dst <? Byte.to_N src)%N then src else dst.

(** Two reductions into the same buffer, one after the other. *)
Definition Reducer_twice {A : Type} (reduce : A → A → A)
    (src1 src2 dst : list A) (len : Z) (dtype : MPI_Datatype) : option (list A) :=
  r ← op.Reducer reduce src1 dst len dtype;
  snd <$> op.Reducer reduce src2 r.2 len dtype.

(** The sum of the elements at index [i] of the buffers [peers]. *)
Definition column_sum (i : nat) (peers : list (list Z)) : Z :=
  foldr (fun p acc => (default 0 (p !! i) + acc)%Z) 0%Z peers.

(** * Properties *)

(** ** Loops *)

(** ** The operator catalogue *)

Local Open Scope Z_scope.

Lemma SFcompare_refl (x : spec_float) :
  SFcompare x x = None ∨ SFcompare x x = Some Eq.
Proof.
  destruct x as [s|s| |s m e]; simpl; auto.
  - right. by destruct s.
  - right. rewrite Z.compare_refl.
    change (PosDef.Pos.compare_cont Eq m m) with (Pos.compare m m).
    rewrite Pos.compare_refl. by destruct s.
Qed.

Lemma SFltb_irrefl (x : spec_float) : SFltb x x = false.
Proof. unfold SFltb. by destruct (SFcompare_refl x) as [-> | ->]. Qed.

Lemma lt_irrefl (T : scalar) (x : dval T) : lt T x x = false.
Proof. destruct T; simpl; [apply Z.ltb_irrefl | apply SFltb_irrefl]. Qed.

Lemma gt_lt (T : scalar) (a b : dval T) : gt T a b = lt T b a.
Proof. destruct T; simpl; [apply Z.gtb_ltb | done]. Qed.

Lemma Max_Reduce_Z (t : int_type) (dst src : Z) :
  op.Max.Reduce (Integral t) dst src = Z.max dst src.
Proof.
  unfold op.Max.Reduce. simpl. destruct (Z.ltb_spec dst src); lia.
Qed.

Lemma Min_Reduce_Z (t : int_type) (dst src : Z) :
  op.Min.Reduce (Integral t) dst src = Z.min dst src.
Proof.
  unfold op.Min.Reduce. rewrite gt_lt. simpl. destruct (Z.ltb_spec src dst); lia.
Qed.

Lemma bit_width_pos (t : int_type) : 0 < bit_width t.
Proof. by destruct t. Qed.

Lemma wrap_in_range (t : int_type) (z : Z) : in_range t (wrap t z).
Proof.
  unfold in_range, wrap, min_value, max_value.
  pose proof (bit_width_pos t) as Hw.
  assert (2 ^ bit_width t = 2 * 2 ^ (bit_width t - 1)) as Hp.
  { rewrite <- Z.pow_succ_r by lia. f_equal. lia. }
  assert (0 < 2 ^ (bit_width t - 1)) by (apply Z.pow_pos_nonneg; lia).
  destruct (is_signed t).
  - pose proof (Z.mod_pos_bound (z + 2 ^ (bit_width t - 1)) (2 ^ bit_width t)). lia.
  - pose proof (Z.mod_pos_bound z (2 ^ bit_width t)). lia.
Qed.

Lemma wrap_small (t : int_type) (z : Z) : in_range t z → wrap t z = z.
Proof.
  unfold in_range, wrap, min_value, max_value.
  pose proof (bit_width_pos t) as Hw.
  assert (2 ^ bit_width t = 2 * 2 ^ (bit_width t - 1)) as Hp.
  { rewrite <- Z.pow_succ_r by lia. f_equal. lia. }
  destruct (is_signed t); intros Hr.
  - rewrite Z.mod_small by lia. lia.
  - apply Z.mod_small. lia.
Qed.

(** [wrap] only depends on the residue modulo [2 ^ bit_width]. *)
Lemma wrap_congr (t : int_type) (a b : Z) :
  a mod 2 ^ bit_width t = b mod 2 ^ bit_width t → wrap t a = wrap t b.
Proof.
  intros Hab. unfold wrap. destruct (is_signed t); [|done].
  f_equal. rewrite (Z.add_mod a), (Z.add_mod b), Hab; [done| |];
    pose proof (bit_width_pos t); apply Z.pow_nonzero; lia.
Qed.

Lemma wrap_mod (t : int_type) (z : Z) :
  wrap t z mod 2 ^ bit_width t = z mod 2 ^ bit_width t.
Proof.
  unfold wrap. pose proof (bit_width_pos t) as Hw.
  assert (2 ^ bit_width t ≠ 0) as Hnz by (apply Z.pow_nonzero; lia).
  destruct (is_signed t); [|by rewrite Z.mod_mod].
  rewrite Zminus_mod_idemp_l. f_equal. lia.
Qed.

Lemma wrap_add_l (t : int_type) (a b : Z) : wrap t (wrap t a + b) = wrap t (a + b).
Proof.
  apply wrap_congr. pose proof (bit_width_pos t).
  rewrite Z.add_mod, wrap_mod, <- Z.add_mod; [done| |]; apply Z.pow_nonzero; lia.
Qed.

Lemma wrap_add_r (t : int_type) (a b : Z) : wrap t (a + wrap t b) = wrap t (a + b).
Proof. rewrite (Z.add_comm a), wrap_add_l. f_equal. lia. Qed.

Lemma below_pow2_bits (k x : Z) :
  0 ≤ k → (0 ≤ x < 2 ^ k ↔ 0 ≤ x ∧ ∀ i, k ≤ i → Z.testbit x i = false).
Proof.
  intros Hk. split.
  - intros [Hx0 Hx]. split; [done|]. intros i Hi.
    destruct (decide (x = 0)) as [->|]; [apply Z.bits_0|].
    apply Z.bits_above_log2; [done|].
    assert (Z.log2 x < k) by (apply Z.log2_lt_pow2; lia). lia.
  - intros [Hx0 Hx]. split; [done|].
    destruct (decide (x = 0)) as [->|]; [apply Z.pow_pos_nonneg; lia|].
    apply Z.log2_lt_pow2; [lia|].
    destruct (Z_lt_le_dec (Z.log2 x) k) as [|Hge]; [done|].
    pose proof (Z.bit_log2 x ltac:(lia)) as Hb.
    rewrite Hx in Hb by done. discriminate.
Qed.

Lemma lor_below_pow2 (k a b : Z) :
  0 ≤ k → 0 ≤ a < 2 ^ k → 0 ≤ b < 2 ^ k → 0 ≤ Z.lor a b < 2 ^ k.
Proof.
  intros Hk Ha Hb. apply below_pow2_bits; [done|].
  apply below_pow2_bits in Ha as [Ha0 Ha]; [|done].
  apply below_pow2_bits in Hb as [Hb0 Hb]; [|done].
  split; [by apply Z.lor_nonneg|].
  intros i Hi. by rewrite Z.lor_spec, Ha, Hb.
Qed.

(** [|] on two's-complement values: when an operand is negative, so is the
    result, and its complement is the conjunction of the complements. *)
Lemma lor_signed_range (k a b : Z) :
  0 ≤ k → - 2 ^ k ≤ a < 2 ^ k → - 2 ^ k ≤ b < 2 ^ k →
  - 2 ^ k ≤ Z.lor a b < 2 ^ k.
Proof.
  intros Hk Ha Hb.
  destruct (Z_lt_le_dec a 0) as [Han|Hap]; destruct (Z_lt_le_dec b 0) as [Hbn|Hbp].
  4: { pose proof (lor_below_pow2 k a b Hk ltac:(lia) ltac:(lia)). lia. }
  all: assert (Z.lor a b < 0) as Hneg by (apply Z.lor_neg; lia).
  all: assert (0 ≤ Z.lnot (Z.lor a b) < 2 ^ k) as Hl;
    [|unfold Z.lnot in Hl; rewrite <- Z.sub_1_r in Hl; lia].
  all: apply below_pow2_bits; [done|].
  all: split; [apply Z.lnot_nonneg; lia|].
  all: intros i Hi; rewrite Z.lnot_lor, Z.land_spec.
  - assert (0 ≤ Z.lnot a < 2 ^ k) as Hla
      by (unfold Z.lnot; rewrite <- Z.sub_1_r; lia).
    apply below_pow2_bits in Hla as [_ Hla]; [|done]. by rewrite Hla.
  - assert (0 ≤ Z.lnot a < 2 ^ k) as Hla
      by (unfold Z.lnot; rewrite <- Z.sub_1_r; lia).
    apply below_pow2_bits in Hla as [_ Hla]; [|done]. by rewrite Hla.
  - assert (0 ≤ Z.lnot b < 2 ^ k) as Hlb
      by (unfold Z.lnot; rewrite <- Z.sub_1_r; lia).
    apply below_pow2_bits in Hlb as [_ Hlb]; [|done].
    rewrite Hlb; [apply andb_false_r|done].
Qed.

Lemma lor_in_range (t : int_type) (a b : Z) :
  in_range t a → in_range t b → in_range t (Z.lor a b).
Proof.
  unfold in_range, min_value, max_value.
  pose proof (bit_width_pos t) as Hw.
  destruct (is_signed t); intros Ha Hb.
  - pose proof (lor_signed_range (bit_width t - 1) a b ltac:(lia) ltac:(lia) ltac:(lia)).
    lia.
  - pose proof (lor_below_pow2 (bit_width t) a b ltac:(lia) ltac:(lia) ltac:(lia)).
    lia.
Qed.

(** ** The bulk reducer *)

Local Open Scope nat_scope.

Lemma Reducer_from {A : Type} (reduce : A → A → A) (src : list A) (n i : nat)
    (dst : list A) :
  i + n ≤ length src → i + n ≤ length dst →
  ∃ dst',
    for_from (fun i '(src, dst) =>
                d ← dst !! i; s ← src !! i; Some (src, <[i := reduce d s]> dst))
             i n (src, dst) = Some (src, dst')
    ∧ length dst' = length dst
    ∧ (∀ j d s, i ≤ j < i + n → dst !! j = Some d → src !! j = Some s →
               dst' !! j = Some (reduce d s))
    ∧ (∀ j, ¬ (i ≤ j < i + n) → dst' !! j = dst !! j).
Proof.
  revert i dst. induction n as [|n IH]; intros i dst Hsrc Hdst.
  - exists dst. simpl. split; [done|]. split; [done|]. split; [intros; lia | done].
  - destruct (lookup_lt_is_Some_2 dst i ltac:(lia)) as [d Hd].
    destruct (lookup_lt_is_Some_2 src i ltac:(lia)) as [s Hs].
    destruct (IH (S i) (<[i := reduce d s]> dst)) as (dst' & Hrun & Hlen & Hin & Hout).
    { lia. } { rewrite length_insert. lia. }
    exists dst'. simpl. rewrite Hd. simpl. rewrite Hs. simpl.
    split; [exact Hrun|]. rewrite length_insert in Hlen.
    split; [exact Hlen|]. split.
    + intros j d' s' Hj Hd' Hs'.
      destruct (decide (j = i)) as [->|Hne].
      * rewrite Hout by lia. rewrite list_lookup_insert_eq by lia. congruence.
      * apply Hin; [lia| |done]. by rewrite list_lookup_insert_ne.
    + intros j Hj. rewrite Hout by lia. apply list_lookup_insert_ne. lia.
Qed.

Lemma Reducer_spec {A : Type} (reduce : A → A → A) (src dst : list A)
    (len : Z) (dtype : MPI_Datatype) :
  Z.to_nat len ≤ length src → Z.to_nat len ≤ length dst →
  ∃ dst',
    op.Reducer reduce src dst len dtype = Some (src, dst')
    ∧ length dst' = length dst
    ∧ (∀ i d s, i < Z.to_nat len → dst !! i = Some d → src !! i = Some s →
               dst' !! i = Some (reduce d s))
    ∧ (∀ i, Z.to_nat len ≤ i → dst' !! i = dst !! i).
Proof.
  intros Hsrc Hdst.
  destruct (Reducer_from reduce src (Z.to_nat len) 0 dst) as (dst' & H1 & H2 & H3 & H4);
    [lia..|].
  exists dst'. repeat split; [done..| |].
  - intros i d s Hi. apply H3. lia.
  - intros i Hi. apply H4. lia.
Qed.

(** A combine function that leaves [x] alone when given [x] twice makes the
    bulk reducer the identity on a buffer reduced with its own contents. *)
Lemma Reducer_idempotent {A : Type} (reduce : A → A → A) (buf : list A)
    (len : Z) (dtype : MPI_Datatype) :
  (∀ x, reduce x x = x) → Z.to_nat len ≤ length buf →
  op.Reducer reduce buf buf len dtype = Some (buf, buf).
Proof.
  intros Hid Hlen.
  destruct (Reducer_spec reduce buf buf len dtype) as (dst' & -> & _ & Hin & Hout);
    [done..|].
  do 2 f_equal. apply list_eq. intros i.
  destruct (decide (i < Z.to_nat len)) as [Hi|Hi]; [|apply Hout; lia].
  destruct (lookup_lt_is_Some_2 buf i ltac:(lia)) as [x Hx].
  rewrite (Hin i x x Hi Hx Hx), Hx. by rewrite Hid.
Qed.

(** C3.  Reducer zips the operator's combine over the first len elements of
    dst and src, leaves the other elements of dst and all of src as they
    were; and the typed Allreduce hands the engine exactly this function,
    sizeof(DType), GetType<DType>() and OP::kType. *)
Theorem Reducer_zips_and_Allreduce_passes_it
    (o : op.OP) (T : scalar) (reduce : dval T → dval T → dval T)
    (src dst : list (dval T)) (len : Z) (dtype : MPI_Datatype)
    (M : Type) (Allreduce_ : Allreduce_sig M (dval T))
    (sendrecvbuf : buf_ref M (dval T)) (count : nat)
    (prepare_fun : option (PreprocFunction M)) :
  op.Reduce o T = Some reduce →
  Z.to_nat len ≤ length src →
  Z.to_nat len ≤ length dst →
  (∃ dst',
     op.Reducer reduce src dst len dtype = Some (src, dst')
     ∧ length dst' = length dst
     ∧ (∀ i d s, i < Z.to_nat len → dst !! i = Some d → src !! i = Some s →
                dst' !! i = Some (reduce d s))
     ∧ (∀ i, Z.to_nat len ≤ i → dst' !! i = dst !! i))
  ∧ Allreduce o T Allreduce_ sendrecvbuf count prepare_fun =
    Some (Allreduce_ sendrecvbuf (sizeof T) count (op.Reducer reduce)
            (GetType T) (op.kType o) prepare_fun).
Proof.
  intros Hop Hsrc Hdst. split.
  - by apply Reducer_spec.
  - unfold Allreduce. by rewrite Hop.
Qed.

Lemma Reducer_zips_and_Allreduce_passes_it_witness :
  let T := Integral Int in
  let reduce := op.Sum.Reduce T in
  let src := [1; 2]%Z in
  let dst := [10; 20; 30]%Z in
  let dtype := {| type_size := 4 |} in
  let Allreduce_ : Allreduce_sig (caller Z unit) Z :=
    engine_Allreduce_ single_participant in
  (op.Reduce op.SumOp T = Some reduce ∧ Z.to_nat 2 ≤ length src
   ∧ Z.to_nat 2 ≤ length dst)
  ∧ (∃ dst',
       op.Reducer reduce src dst 2 dtype = Some (src, dst')
       ∧ length dst' = length dst
       ∧ (∀ i d s, i < Z.to_nat 2 → dst !! i = Some d → src !! i = Some s →
                  dst' !! i = Some (reduce d s))
       ∧ (∀ i, Z.to_nat 2 ≤ i → dst' !! i = dst !! i))
  ∧ Allreduce op.SumOp T Allreduce_ the_buffer 3 None =
    Some (Allreduce_ the_buffer (sizeof T) 3 (op.Reducer reduce)
            (GetType T) (op.kType op.SumOp) None).
Proof.
  intros T reduce src dst dtype Allreduce_.
  split; [repeat split; simpl; lia|].
  apply (Reducer_zips_and_Allreduce_passes_it op.SumOp T reduce src dst 2 dtype);
    [reflexivity | simpl; lia | simpl; lia].
Defined.

Example Reducer_Sum_int :
  op.Reducer (op.Sum.Reduce (Integral Int)) [1; 2]%Z [10; 20; 30]%Z 2
    {| type_size := 4 |} = Some ([1; 2]%Z, [11; 22; 30]%Z).
Proof. reflexivity. Qed.

(** ** The four operators *)

Local Open Scope Z_scope.

(** Two values that are not NaN compare, and compare the other way round
    when exchanged. *)
Lemma SFcompare_antisym (x y : spec_float) :
  x ≠ S754_nan → y ≠ S754_nan →
  ∃ c, SFcompare x y = Some c ∧ SFcompare y x = Some (CompOpp c).
Proof.
  intros Hx Hy.
  destruct x as [sx|sx| |sx mx ex], y as [sy|sy| |sy my ey]; try done;
    cbn [SFcompare]; eexists; (split; [reflexivity|]);
    try (by destruct sx); try (by destruct sy).
  - by destruct sx, sy.
  - change (PosDef.Pos.compare_cont Eq my mx) with (Pos.compare my mx).
    change (PosDef.Pos.compare_cont Eq mx my) with (Pos.compare mx my).
    rewrite (Z.compare_antisym ex ey), (Pos.compare_antisym mx my).
    destruct sx, sy; try done;
      destruct (ex ?= ey); cbn [CompOpp]; try done;
      destruct (mx ?= my)%positive; done.
Qed.

Lemma SFleb_refl (x : spec_float) : x ≠ S754_nan → SFleb x x = true.
Proof.
  intros Hx. unfold SFleb.
  destruct (SFcompare_antisym x x Hx Hx) as (c & Hc & _).
  destruct (SFcompare_refl x) as [Hn|He]; [congruence|]. by rewrite He.
Qed.

(** Without a NaN the result of Max is not below, and that of Min not
    above, either argument. *)
Lemma float_Max_Min_bounds (t : float_type) (dst src : spec_float) :
  dst ≠ S754_nan → src ≠ S754_nan →
  SFleb dst (op.Max.Reduce (Floating t) dst src) = true
  ∧ SFleb src (op.Max.Reduce (Floating t) dst src) = true
  ∧ SFleb (op.Min.Reduce (Floating t) dst src) dst = true
  ∧ SFleb (op.Min.Reduce (Floating t) dst src) src = true.
Proof.
  intros Hd Hs. unfold op.Max.Reduce, op.Min.Reduce. cbn [lt gt].
  pose proof (SFleb_refl dst Hd) as Hdd. pose proof (SFleb_refl src Hs) as Hss.
  destruct (SFcompare_antisym dst src Hd Hs) as (c & Hc & Hc').
  unfold SFltb, SFleb in *. rewrite Hc, Hc'.
  destruct c; cbn [CompOpp]; rewrite ?Hc, ?Hc'; done.
Qed.

(** C5, as stated, fails at float and double: Max and Min leave a dst that
    is a NaN as it is, and a NaN is neither the maximum nor the minimum of
    itself and 1 (1 <= NaN and NaN <= 1 are both false). *)
Lemma Max_Min_of_NaN_not_extremum :
  ¬ (∀ (T : scalar) (dst src : dval T),
       is_value T dst → is_value T src →
       leq T src (op.Max.Reduce T dst src) = true
       ∧ leq T (op.Min.Reduce T dst src) src = true).
Proof.
  intros Hclaim.
  destruct (Hclaim (Floating Double) S754_nan (one (Floating Double)))
    as [Hmax _]; [reflexivity..|].
  vm_compute in Hmax. discriminate.
Qed.

(** C5, amended.  At the six integer types Max assigns src exactly when
    dst < src and dst ends as the maximum, Min assigns src exactly when
    src < dst and dst ends as the minimum, Sum leaves the value of the
    type that is congruent to dst + src modulo 2^width, BitOR leaves
    dst | src.  At float and double Max and Min assign under the same
    comparisons, so that dst ends not below (Max) and not above (Min)
    either value when neither is a NaN, a NaN in dst stays and a NaN in
    src is never assigned; Sum leaves the IEEE-754 sum in the format of
    the type.  On a one-element buffer pair the source element is
    returned as it was. *)
Theorem Reduce_semantics :
  (∀ (t : int_type) (dst src : Z) (dtype : MPI_Datatype),
     op.Max.Reduce (Integral t) dst src = (if dst <? src then src else dst)
     ∧ op.Max.Reduce (Integral t) dst src = Z.max dst src
     ∧ op.Min.Reduce (Integral t) dst src = (if src <? dst then src else dst)
     ∧ op.Min.Reduce (Integral t) dst src = Z.min dst src
     ∧ op.Sum.Reduce (Integral t) dst src = wrap t (dst + src)
     ∧ in_range t (op.Sum.Reduce (Integral t) dst src)
     ∧ (op.Sum.Reduce (Integral t) dst src - (dst + src)) mod 2 ^ bit_width t = 0
     ∧ op.BitOR.Reduce t dst src = Z.lor dst src
     ∧ op.Reduce op.BitOROp (Integral t) = Some (op.BitOR.Reduce t)
     ∧ op.Reducer (op.BitOR.Reduce t) [src] [dst] 1 dtype
       = Some ([src], [Z.lor dst src]))
  ∧ (∀ (t : float_type) (dst src : spec_float),
       let add := match t with
                  | Float => SFadd 24 128
                  | Double => SFadd 53 1024
                  end in
       op.Max.Reduce (Floating t) dst src = (if SFltb dst src then src else dst)
       ∧ op.Min.Reduce (Floating t) dst src = (if SFltb src dst then src else dst)
       ∧ op.Sum.Reduce (Floating t) dst src = add dst src
       ∧ (dst ≠ S754_nan → src ≠ S754_nan →
          SFleb dst (op.Max.Reduce (Floating t) dst src) = true
          ∧ SFleb src (op.Max.Reduce (Floating t) dst src) = true
          ∧ SFleb (op.Min.Reduce (Floating t) dst src) dst = true
          ∧ SFleb (op.Min.Reduce (Floating t) dst src) src = true)
       ∧ op.Max.Reduce (Floating t) S754_nan src = S754_nan
       ∧ op.Min.Reduce (Floating t) S754_nan src = S754_nan
       ∧ op.Max.Reduce (Floating t) dst S754_nan = dst
       ∧ op.Min.Reduce (Floating t) dst S754_nan = dst)
  ∧ (∀ (T : scalar) (dst src : dval T) (dtype : MPI_Datatype),
       op.Reducer (op.Max.Reduce T) [src] [dst] 1 dtype
       = Some ([src], [op.Max.Reduce T dst src])
       ∧ op.Reducer (op.Min.Reduce T) [src] [dst] 1 dtype
         = Some ([src], [op.Min.Reduce T dst src])
       ∧ op.Reducer (op.Sum.Reduce T) [src] [dst] 1 dtype
         = Some ([src], [op.Sum.Reduce T dst src])).
Proof.
  split; [|split].
  - intros t dst src dtype.
    split; [reflexivity|]. split; [apply Max_Reduce_Z|].
    split; [unfold op.Min.Reduce; by rewrite gt_lt|].
    split; [apply Min_Reduce_Z|]. split; [reflexivity|].
    split; [apply wrap_in_range|]. split; [|by repeat split].
    unfold op.Sum.Reduce. cbn [plus]. pose proof (bit_width_pos t) as Hw.
    rewrite Zminus_mod, wrap_mod, <- Zminus_mod, Z.sub_diag.
    apply Z.mod_0_l. apply Z.pow_nonzero; lia.
  - intros t dst src add.
    split; [reflexivity|]. split; [reflexivity|].
    split; [by destruct t|]. split; [apply float_Max_Min_bounds|].
    unfold op.Max.Reduce, op.Min.Reduce. cbn [lt gt]. unfold SFltb.
    split; [reflexivity|]. split; [by destruct src|].
    by destruct dst.
  - intros T dst src dtype. by repeat split.
Qed.

(** At double: an ordinary maximum and sum, and the two cases with a
    NaN. *)
Example Reduce_double :
  let two := op.Sum.Reduce (Floating Double) (one _) (one _) in
  op.Max.Reduce (Floating Double) (one _) two = two
  ∧ op.Min.Reduce (Floating Double) (one _) two = one _
  ∧ two = S754_finite false (2 ^ 52) (-51)
  ∧ op.Max.Reduce (Floating Double) S754_nan two = S754_nan
  ∧ op.Max.Reduce (Floating Double) two S754_nan = two.
Proof. vm_compute. repeat split. Qed.

(** The results of the four operators at an integer type are values of the
    type again. *)
Lemma Reduce_in_range (o : op.OP) (t : int_type) (reduce : Z → Z → Z) (dst src : Z) :
  op.Reduce o (Integral t) = Some reduce →
  in_range t dst → in_range t src → in_range t (reduce dst src).
Proof.
  intros Hop Hd Hs. destruct o; simpl in Hop; injection Hop as <-.
  - rewrite Max_Reduce_Z. unfold in_range in *. lia.
  - rewrite Min_Reduce_Z. unfold in_range in *. lia.
  - apply wrap_in_range.
  - by apply lor_in_range.
Qed.

(** C6, as stated, fails at the floating-point types: the sum of 1, 2^p
    and -2^p depends on the association, and Max and Min keep their first
    argument when the other one is a NaN. *)
Lemma float_combine_not_associative_commutative :
  ¬ (∀ (o : op.OP) (T : scalar) (combine : dval T → dval T → dval T),
       op.Reduce o T = Some combine →
       ∀ a b c : dval T,
         is_value T a → is_value T b → is_value T c →
         combine (combine a b) c = combine a (combine b c)
         ∧ combine a b = combine b a).
Proof.
  intros Hclaim.
  destruct (Hclaim op.SumOp (Floating Double) _ eq_refl
              (one (Floating Double)) (big Double) (minus_big Double))
    as [Hassoc _]; [reflexivity..|].
  vm_compute in Hassoc. discriminate.
Qed.

Example float_Sum_not_associative (t : float_type) :
  op.Sum.Reduce (Floating t) (op.Sum.Reduce (Floating t) (one (Floating t)) (big t))
    (minus_big t) = S754_zero false
  ∧ op.Sum.Reduce (Floating t) (one (Floating t))
      (op.Sum.Reduce (Floating t) (big t) (minus_big t)) = one (Floating t).
Proof. by destruct t. Qed.

Example float_Max_Min_not_commutative (t : float_type) :
  op.Max.Reduce (Floating t) S754_nan (one (Floating t)) = S754_nan
  ∧ op.Max.Reduce (Floating t) (one (Floating t)) S754_nan = one (Floating t)
  ∧ op.Min.Reduce (Floating t) S754_nan (one (Floating t)) = S754_nan
  ∧ op.Min.Reduce (Floating t) (one (Floating t)) S754_nan = one (Floating t).
Proof. by destruct t. Qed.

(** C6, amended.  At the six integer types the four combine functions are
    associative and commutative (Sum with the wrap-around of the type). *)
Theorem integer_combine_associative_commutative
    (o : op.OP) (t : int_type) (combine : Z → Z → Z) (a b c : Z) :
  op.Reduce o (Integral t) = Some combine →
  combine (combine a b) c = combine a (combine b c)
  ∧ combine a b = combine b a.
Proof.
  intros Hop. destruct o; simpl in Hop; injection Hop as <-.
  - rewrite !Max_Reduce_Z. lia.
  - rewrite !Min_Reduce_Z. lia.
  - unfold op.Sum.Reduce. simpl. rewrite wrap_add_l, wrap_add_r.
    split; f_equal; lia.
  - unfold op.BitOR.Reduce. split; [by rewrite Z.lor_assoc | apply Z.lor_comm].
Qed.

Lemma integer_combine_associative_commutative_witness :
  let combine := op.Sum.Reduce (Integral Int) in
  op.Reduce op.SumOp (Integral Int) = Some combine
  ∧ combine (combine 2147483647 1) (-1) = combine 2147483647 (combine 1 (-1))
  ∧ combine 2147483647 1 = combine 1 2147483647.
Proof.
  intros combine. split; [reflexivity|].
  apply (integer_combine_associative_commutative op.SumOp Int combine). reflexivity.
Defined.



(** ** Broadcast of containers *)

Local Open Scope nat_scope.

Lemma length_write_region (region received : list byte) :
  length (write_region region received) = length region.
Proof.
  unfold write_region. rewrite length_take, length_app, length_drop. lia.
Qed.

Section BroadcastFacts.
Context {E : Type}.
Variable engine_Broadcast : list byte → nat → Z → E → list byte * E.

Lemma Broadcast_trace (data : list byte) (size : nat) (root : Z) (w : process) :
  (Broadcast engine_Broadcast data size root w).2.2
  = w.2 ++ [EvBroadcast size root].
Proof.
  unfold Broadcast. by destruct (engine_Broadcast data size root w.1).
Qed.

Lemma Broadcast_length (data : list byte) (size : nat) (root : Z) (w : process) :
  length (Broadcast engine_Broadcast data size root w).1 = length data.
Proof.
  unfold Broadcast. destruct (engine_Broadcast data size root w.1).
  apply length_write_region.
Qed.

(** C4, amended.  Both container overloads hand the engine the object
    representation of the local length in sizeof(size_t) bytes first; the
    length the engine leaves there is the broadcast length.  The container
    is resized to it exactly when its size differs.  When the broadcast
    length is zero the engine is not called again and the container ends
    empty (a non-empty receiver has been resized to nothing); otherwise
    the engine is called a second time, from the state the first call
    left, with the bytes of the resized container and their number, and
    the container ends holding what the engine left in them. *)
Theorem Broadcast_container_steps {A : Type} `{FixedLayout A}
    (v : list A) (s : list byte) (root : Z) (w : process) :
  (let first :=
     engine_Broadcast (encode_size_t (length v)) sizeof_size_t root w.1 in
   let size :=
     decode_size_t (write_region (encode_size_t (length v)) first.1) in
   let resized := if decide (length v = size) then v
                  else resize size value_init v in
   let second :=
     engine_Broadcast (vector_bytes resized) (size_t_mul size elem_size) root
       first.2 in
   let events :=
     w.2 ++ [EvBroadcast sizeof_size_t root]
       ++ (if decide (length v = size) then [] else [EvResize size]) in
   Broadcast_vector engine_Broadcast v root w
   = if decide (size = 0) then ([], (first.2, events))
     else (vector_of_bytes size (write_region (vector_bytes resized) second.1),
           (second.2,
            events ++ [EvBroadcast (size_t_mul size elem_size) root])))
  ∧ (let first :=
       engine_Broadcast (encode_size_t (length s)) sizeof_size_t root w.1 in
     let size :=
       decode_size_t (write_region (encode_size_t (length s)) first.1) in
     let resized := if decide (length s = size) then s
                    else resize size x00 s in
     let second :=
       engine_Broadcast resized (size_t_mul size 1) root first.2 in
     let events :=
       w.2 ++ [EvBroadcast sizeof_size_t root]
         ++ (if decide (length s = size) then [] else [EvResize size]) in
     Broadcast_string engine_Broadcast s root w
     = if decide (size = 0) then ([], (first.2, events))
       else (write_region resized second.1,
             (second.2, events ++ [EvBroadcast (size_t_mul size 1) root]))).
Proof.
  split.
  - unfold Broadcast_vector, Broadcast, log.
    destruct (engine_Broadcast (encode_size_t (length v)) sizeof_size_t root w.1)
      as [r1 e1]. cbn [fst snd].
    set (size := decode_size_t (write_region (encode_size_t (length v)) r1)).
    destruct (decide (length v = size)) as [Heq|Hne].
    + rewrite (decide_False (P := length v ≠ size)) by (by intros []).
      destruct (decide (size = 0)) as [Hz|Hnz].
      * rewrite (decide_False (P := size ≠ 0)) by (by intros []).
        rewrite app_nil_r. f_equal. apply nil_length_inv. lia.
      * rewrite (decide_True (P := size ≠ 0)) by done. cbn [fst snd].
        destruct (engine_Broadcast (vector_bytes v) _ root e1) as [r2 e2].
        cbn [fst snd]. by rewrite app_nil_r.
    + rewrite (decide_True (P := length v ≠ size)) by done.
      destruct (decide (size = 0)) as [Hz|Hnz].
      * rewrite (decide_False (P := size ≠ 0)) by (by intros []).
        cbn [fst snd]. rewrite <- app_assoc. f_equal.
        apply nil_length_inv. rewrite length_resize. done.
      * rewrite (decide_True (P := size ≠ 0)) by done. cbn [fst snd].
        destruct (engine_Broadcast (vector_bytes _) _ root e1) as [r2 e2].
        cbn [fst snd]. by rewrite <- !app_assoc.
  - unfold Broadcast_string, Broadcast, log.
    destruct (engine_Broadcast (encode_size_t (length s)) sizeof_size_t root w.1)
      as [r1 e1]. cbn [fst snd].
    set (size := decode_size_t (write_region (encode_size_t (length s)) r1)).
    destruct (decide (length s = size)) as [Heq|Hne].
    + rewrite (decide_False (P := length s ≠ size)) by (by intros []).
      destruct (decide (size = 0)) as [Hz|Hnz].
      * rewrite (decide_False (P := size ≠ 0)) by (by intros []).
        rewrite app_nil_r. f_equal. apply nil_length_inv. lia.
      * rewrite (decide_True (P := size ≠ 0)) by done. cbn [fst snd].
        destruct (engine_Broadcast s _ root e1) as [r2 e2].
        cbn [fst snd]. by rewrite app_nil_r.
    + rewrite (decide_True (P := length s ≠ size)) by done.
      destruct (decide (size = 0)) as [Hz|Hnz].
      * rewrite (decide_False (P := size ≠ 0)) by (by intros []).
        cbn [fst snd]. rewrite <- app_assoc. f_equal.
        apply nil_length_inv. rewrite length_resize. done.
      * rewrite (decide_True (P := size ≠ 0)) by done. cbn [fst snd].
        destruct (engine_Broadcast (resize _ _ _) _ root e1) as [r2 e2].
        cbn [fst snd]. by rewrite <- !app_assoc.
Qed.
End BroadcastFacts.

(** The scenario of the specification: a participant with an empty string
    receives the 9 characters of the root. *)
Example Broadcast_config_v1 :
  let msg := String.list_byte_of_string "config-v1"%string in
  Broadcast_string receiving_engine [] 0%Z ([encode_size_t 9; msg], [])
  = (msg, ([], [EvBroadcast 8 0%Z; EvResize 9; EvBroadcast 9 0%Z])).
Proof. vm_compute. reflexivity. Qed.

(** On the root nothing is resized. *)
Example Broadcast_root :
  let msg := String.list_byte_of_string "config-v1"%string in
  Broadcast_string (fun data _ _ (e : unit) => (data, e)) msg 0%Z (tt, [])
  = (msg, (tt, [EvBroadcast 8 0%Z; EvBroadcast 9 0%Z])).
Proof. vm_compute. reflexivity. Qed.

(** C4, as stated, fails: a broadcast of length zero transmits the length
    only, but it is not a no-op beyond that.  A receiver that holds two
    elements is resized and ends empty, for the vector and for the
    string. *)
Lemma zero_length_Broadcast_not_noop :
  let w : process := ([encode_size_t 0], []) in
  broadcast_length receiving_engine (length [x01; x02]) 0%Z w = 0
  ∧ Broadcast_vector receiving_engine [x01; x02] 0%Z w
    = ([], ([], [EvBroadcast 8 0%Z; EvResize 0]))
  ∧ Broadcast_string receiving_engine [x01; x02] 0%Z w
    = ([], ([], [EvBroadcast 8 0%Z; EvResize 0]))
  ∧ ¬ (∀ (v : list byte) (w' : process),
         broadcast_length receiving_engine (length v) 0%Z w' = 0 →
         (Broadcast_vector receiving_engine v 0%Z w').1 = v
         ∧ (Broadcast_string receiving_engine v 0%Z w').1 = v).
Proof.
  intros w. split; [reflexivity|]. split; [reflexivity|].
  split; [reflexivity|]. intros Hclaim.
  destruct (Hclaim [x01; x02] w eq_refl) as [Hv _]. discriminate Hv.
Qed.

(** ** TrackerPrintf *)

(** C10.  TrackerPrint always receives 1024 bytes: the first 1023
    characters of the formatted output at most, then NUL bytes up to
    length 1024. *)
Theorem TrackerPrintf_message {Fmt Args R : Type}
    (format : Fmt → Args → list byte) (engine_TrackerPrint : list byte → R)
    (fmt : Fmt) (args : Args) :
  let formatted := format fmt args in
  let msg :=
    take 1023 formatted ++ replicate (1024 - Nat.min (length formatted) 1023) x00 in
  TrackerPrintf format engine_TrackerPrint fmt args = engine_TrackerPrint msg
  ∧ length msg = 1024.
Proof.
  intros formatted msg. subst msg. split.
  - unfold TrackerPrintf, TrackerPrint. f_equal.
    change kPrintBuffer with 1024. unfold vsnprintf. fold formatted.
    rewrite drop_replicate.
    replace (take (Nat.min (length formatted) 1023) formatted)
      with (take 1023 formatted).
    2: { destruct (decide (length formatted ≤ 1023)).
         - rewrite Nat.min_l by done. by rewrite !take_ge by lia.
         - by rewrite Nat.min_r by lia. }
    f_equal. change ([x00] ++ ?l) with (replicate 1 x00 ++ l).
    rewrite <- replicate_add. f_equal. lia.
  - rewrite length_app, length_take, length_replicate. lia.
Qed.

Example TrackerPrintf_short :
  TrackerPrintf (fun (fmt : list byte) (_ : unit) => fmt) (fun msg => msg)
    (String.list_byte_of_string "ok"%string) tt
  = String.list_byte_of_string "ok"%string ++ replicate 1022 x00.
Proof. vm_compute. reflexivity. Qed.

(** ** Checkpoints and versions *)

Local Open Scope Z_scope.

Section CheckPointFacts.
Context {Model : Type}.

Lemma VersionNumber_do_call (st : CheckpointState Model)
    (c : checkpoint_call (Model := Model)) :
  VersionNumber (spec_engine Model) (do_call (spec_engine Model) st c)
  = VersionNumber (spec_engine Model) st + 1.
Proof. by destruct c. Qed.

Lemma VersionNumber_do_calls (cs : list (checkpoint_call (Model := Model)))
    (st : CheckpointState Model) :
  VersionNumber (spec_engine Model) (do_calls (spec_engine Model) cs st)
  = VersionNumber (spec_engine Model) st + Z.of_nat (length cs).
Proof.
  revert st. induction cs as [|c cs IH]; intros st.
  - simpl. lia.
  - change (do_calls (spec_engine Model) (c :: cs) st)
      with (do_calls (spec_engine Model) cs (do_call (spec_engine Model) st c)).
    rewrite IH, VersionNumber_do_call, length_cons. lia.
Qed.

(** C2.  Every CheckPoint or LazyCheckPoint call adds exactly 1 to
    VersionNumber, so a run of calls adds its length and the version
    never decreases along a run; it is the version of the state the last
    call committed.  LoadCheckPoint before any checkpoint returns 0 and
    hands the caller's models back untouched. *)
Theorem version_monotone
    (cs more : list (checkpoint_call (Model := Model)))
    (c : checkpoint_call (Model := Model))
    (st : CheckpointState Model) (global_model : Model)
    (local_model : option Model) :
  VersionNumber (spec_engine Model) (do_call (spec_engine Model) st c)
  = VersionNumber (spec_engine Model) st + 1
  ∧ VersionNumber (spec_engine Model) (do_calls (spec_engine Model) cs st)
    = VersionNumber (spec_engine Model) st + Z.of_nat (length cs)
  ∧ VersionNumber (spec_engine Model) (do_calls (spec_engine Model) cs st)
    ≤ VersionNumber (spec_engine Model)
        (do_calls (spec_engine Model) (cs ++ more) st)
  ∧ VersionNumber (spec_engine Model)
      (do_calls (spec_engine Model) (cs ++ [c]) st)
    = version (do_call (spec_engine Model)
                 (do_calls (spec_engine Model) cs st) c)
  ∧ VersionNumber (spec_engine Model)
      (do_calls (spec_engine Model) cs no_checkpoint)
    = Z.of_nat (length cs)
  ∧ LoadCheckPoint (spec_engine Model) global_model local_model no_checkpoint
    = (0, global_model, local_model, no_checkpoint).
Proof.
  split; [apply VersionNumber_do_call|].
  split; [apply VersionNumber_do_calls|].
  split; [rewrite !VersionNumber_do_calls, length_app; lia|].
  split; [unfold do_calls; by rewrite fold_left_app|].
  split; [by rewrite VersionNumber_do_calls|done].
Qed.
End CheckPointFacts.

Example versions_of_a_run :
  let e := spec_engine nat in
  let st := do_calls e [CallCheckPoint 10%nat (Some 1%nat); CallLazyCheckPoint 20%nat]
              no_checkpoint in
  VersionNumber e st = 2
  ∧ LoadCheckPoint e 0%nat None st = (2, 20%nat, Some 1%nat, st).
Proof. split; reflexivity. Qed.

(** ** Streams *)

Local Open Scope nat_scope.

Lemma length_splice (mem : list byte) (off : nat) (data : list byte) :
  off + length data ≤ length mem → length (splice mem off data) = length mem.
Proof.
  intros Hb. unfold splice. rewrite !length_app, length_take, length_drop. lia.
Qed.

Lemma splice_app (prefix rest data : list byte) :
  splice (prefix ++ rest) (length prefix) data
  = prefix ++ data ++ drop (length data) rest.
Proof.
  unfold splice. rewrite take_app_length.
  rewrite drop_app_ge by lia. do 3 f_equal. lia.
Qed.

Lemma splice_splice (mem : list byte) (off : nat) (d1 d2 : list byte) :
  off ≤ length mem →
  splice (splice mem off d1) (off + length d1) d2 = splice mem off (d1 ++ d2).
Proof.
  intros Hb.
  assert (∃ prefix rest, mem = prefix ++ rest ∧ length prefix = off)
    as (prefix & rest & -> & <-).
  { exists (take off mem), (drop off mem).
    split; [by rewrite take_drop | rewrite length_take; lia]. }
  rewrite !splice_app. rewrite app_assoc, <- length_app, splice_app.
  rewrite drop_drop, length_app, <- !app_assoc. done.
Qed.

Lemma take_drop_take (l : list byte) (n c size : nat) :
  c + n ≤ size → take n (drop c (take size l)) = take n (drop c l).
Proof.
  intros Hb. rewrite !take_drop_commute, take_take. do 2 f_equal. lia.
Qed.

Lemma run_reader_stream {R : Type} (mem : list byte) (rd : Reader R)
    (fs fs' : MemoryFixSizeBuffer) (r : R) :
  run_reader mem rd fs = Some (r, fs') →
  p_buffer_ fs' = p_buffer_ fs ∧ buffer_size_ fs' = buffer_size_ fs.
Proof.
  revert fs. induction rd as [r0|size k IH]; intros fs Hrun; simpl in Hrun.
  - by injection Hrun as _ <-.
  - unfold Read in Hrun. repeat case_decide; try discriminate.
    simpl in Hrun. apply IH in Hrun. by simpl in Hrun.
Qed.

Lemma Seek_0_after_reader {R : Type} (mem : list byte) (rd : Reader R)
    (p size : nat) (fs' : MemoryFixSizeBuffer) (r : R) :
  run_reader mem rd (new_MemoryFixSizeBuffer p size) = Some (r, fs') →
  Seek 0 fs' = new_MemoryFixSizeBuffer p size.
Proof.
  intros Hrun. apply run_reader_stream in Hrun as [Hp Hs].
  unfold Seek, new_MemoryFixSizeBuffer. simpl in *. by rewrite Hp, Hs.
Qed.

(** Reading through a stream opened at offset [p] of a memory is reading
    the slice on its own. *)
Lemma run_reader_slice {R : Type} (mem : list byte) (rd : Reader R)
    (p size c : nat) :
  p + size ≤ length mem →
  fst <$> run_reader mem rd
            {| p_buffer_ := p; buffer_size_ := size; curr_ptr_ := c |}
  = fst <$> run_reader (take size (drop p mem)) rd
              {| p_buffer_ := 0; buffer_size_ := size; curr_ptr_ := c |}.
Proof.
  intros Hb. revert c. induction rd as [r0|n k IH]; intros c; simpl; [done|].
  unfold Read. simpl. rewrite length_take, length_drop.
  destruct (decide (c + n ≤ size)) as [Hc|Hc]; [|done].
  rewrite !decide_True by lia. simpl.
  rewrite take_drop_take by done. rewrite drop_drop.
  unfold advance. simpl. apply IH.
Qed.

Lemma run_reader_decode {DType : Type} `{Serializable DType}
    (mem : list byte) (obj : DType) (i nbytes : nat) :
  i * nbytes + nbytes ≤ length mem →
  fst <$> run_reader mem (Load obj) (new_MemoryFixSizeBuffer (i * nbytes) nbytes)
  = decode obj (slot nbytes i mem).
Proof.
  intros Hb. unfold decode, slot, new_MemoryFixSizeBuffer.
  rewrite run_reader_slice by done.
  rewrite length_take, length_drop. by rewrite Nat.min_l by lia.
Qed.

(** A run of writes stores the concatenation of the chunks at the cursor
    when it fits the stream, and fails otherwise. *)
Lemma run_writes_concat (chunks : list (list byte)) (mem : list byte)
    (p size c : nat) :
  p + size ≤ length mem → c ≤ size →
  run_writes mem chunks
    {| p_buffer_ := p; buffer_size_ := size; curr_ptr_ := c |}
  = if decide (c + length (concat chunks) ≤ size)
    then Some (splice mem (p + c) (concat chunks),
               {| p_buffer_ := p; buffer_size_ := size;
                  curr_ptr_ := c + length (concat chunks) |})
    else None.
Proof.
  revert mem c. induction chunks as [|data rest IH]; intros mem c Hb Hc.
  - simpl. rewrite decide_True by lia. unfold splice. simpl.
    rewrite Nat.add_0_r, take_drop. by rewrite Nat.add_0_r.
  - simpl. unfold Write. simpl. rewrite length_app.
    destruct (decide (length data = 0)) as [Hz|Hnz].
    + simpl. rewrite IH by done. apply nil_length_inv in Hz. subst data. done.
    + destruct (decide (c + length data ≤ size)) as [Hfit|Hfit].
      * rewrite decide_True by lia. simpl. unfold advance. simpl.
        rewrite IH by (rewrite ?length_splice; lia).
        destruct (decide (c + length data + length (concat rest) ≤ size)).
        -- rewrite decide_True by lia.
           replace (p + (c + length data)) with (p + c + length data) by lia.
           rewrite splice_splice by lia. do 3 f_equal. lia.
        -- by rewrite decide_False by lia.
      * simpl. by rewrite decide_False by lia.
Qed.

Lemma run_writes_encode {DType : Type} `{Serializable DType}
    (prefix rest : list byte) (obj : DType) (i nbytes : nat) :
  length prefix = i * nbytes → nbytes ≤ length rest →
  fst <$> run_writes (prefix ++ rest) (Save obj)
            (new_MemoryFixSizeBuffer (i * nbytes) nbytes)
  = (fun s => prefix ++ s ++ drop nbytes rest) <$> encode obj (take nbytes rest).
Proof.
  intros Hp Hr. unfold new_MemoryFixSizeBuffer, encode.
  rewrite run_writes_concat by (rewrite ?length_app; lia).
  rewrite length_take, Nat.min_l by done. simpl.
  destruct (decide (length (concat (Save obj)) ≤ nbytes)) as [Hfit|]; [|done].
  simpl. f_equal. rewrite Nat.add_0_r, <- Hp, splice_app.
  f_equal. rewrite <- app_assoc. f_equal.
  rewrite <- (take_drop nbytes rest) at 1.
  rewrite drop_app_le by (rewrite length_take; lia). done.
Qed.

Lemma length_encode {DType : Type} `{Serializable DType}
    (obj : DType) (s s' : list byte) :
  encode obj s = Some s' → length s' = length s.
Proof.
  unfold encode. case_decide; [|done]. intros [= <-].
  rewrite length_app, length_drop. lia.
Qed.

(** ** Slots *)

Lemma slots_S (nbytes n : nat) (mem : list byte) :
  slots nbytes (S n) mem = take nbytes mem :: slots nbytes n (drop nbytes mem).
Proof.
  unfold slots. simpl. f_equal.
  rewrite <- fmap_S_seq. rewrite <- list_fmap_compose.
  apply list_fmap_ext. intros _ j _. unfold slot. simpl.
  rewrite drop_drop. done.
Qed.

Lemma length_slots (nbytes n : nat) (mem : list byte) :
  length (slots nbytes n mem) = n.
Proof. unfold slots. by rewrite length_map, length_seq. Qed.

Lemma slot_app (nbytes i : nat) (prefix rest : list byte) :
  length prefix = i * nbytes →
  slot nbytes i (prefix ++ rest) = take nbytes rest.
Proof.
  intros Hp. unfold slot. rewrite drop_app_ge by lia.
  by replace (i * nbytes - length prefix) with 0 by lia.
Qed.

Lemma slot_drop (nbytes i : nat) (mem : list byte) :
  slot nbytes i mem = take nbytes (drop (i * nbytes) mem).
Proof. done. Qed.

(** A buffer of [n] whole slots is the concatenation of its slots. *)
Lemma concat_slots (nbytes n : nat) (mem : list byte) :
  n * nbytes ≤ length mem →
  concat (slots nbytes n mem) = take (n * nbytes) mem.
Proof.
  revert mem. induction n as [|n IH]; intros mem Hb; [done|].
  rewrite slots_S. simpl. rewrite IH by (rewrite length_drop; lia).
  rewrite <- take_take_drop. done.
Qed.

Lemma slots_lookup (nbytes n i : nat) (mem : list byte) :
  i < n → slots nbytes n mem !! i = Some (slot nbytes i mem).
Proof.
  intros Hi. unfold slots. rewrite list_lookup_fmap, lookup_seq_lt by done. done.
Qed.

Section SlotFacts.
Context {DType : Type} `{Serializable DType}.

(** Slot [i] of the result of [encode_objs] is object [i] encoded into
    slot [i]; object [i] of the result of [decode_objs] is decoded from
    slot [i]. *)
Lemma encode_objs_lookup (objs : list DType) (ss ss' : list (list byte))
    (i : nat) (obj : DType) (s : list byte) :
  encode_objs objs ss = Some ss' →
  objs !! i = Some obj → ss !! i = Some s →
  ∃ s', ss' !! i = Some s' ∧ encode obj s = Some s'.
Proof.
  revert ss ss' i. induction objs as [|o objs IH]; intros ss ss' i Henc Ho Hs.
  - done.
  - destruct ss as [|s0 ss]; [done|]. cbn [encode_objs] in Henc.
    destruct (encode o s0) as [s0'|] eqn:H0; [|done].
    cbn [mbind option_bind] in Henc.
    destruct (encode_objs objs ss) as [rest|] eqn:Hrest; [|done].
    injection Henc as <-. destruct i as [|i].
    + injection Ho as <-. injection Hs as <-. by exists s0'.
    + by apply (IH ss rest i).
Qed.

Lemma decode_objs_lookup (objs objs' : list DType) (ss : list (list byte))
    (i : nat) (obj : DType) (s : list byte) :
  decode_objs objs ss = Some objs' →
  objs !! i = Some obj → ss !! i = Some s →
  ∃ obj', objs' !! i = Some obj' ∧ decode obj s = Some obj'.
Proof.
  revert ss objs' i. induction objs as [|o objs IH]; intros ss objs' i Hdec Ho Hs.
  - done.
  - destruct ss as [|s0 ss]; [done|]. cbn [decode_objs] in Hdec.
    destruct (decode o s0) as [o'|] eqn:H0; [|done].
    cbn [mbind option_bind] in Hdec.
    destruct (decode_objs objs ss) as [rest|] eqn:Hrest; [|done].
    injection Hdec as <-. destruct i as [|i].
    + injection Ho as <-. injection Hs as <-. by exists o'.
    + by apply (IH ss rest i).
Qed.

(** When [Load] does not depend on what the receiving object held, slot
    [i] of the result of [reduce_slots] only depends on slot [i] of the two
    buffers. *)
Lemma reduce_slots_lookup (nbytes : nat) (tsrc tdst : DType)
    (src_slots dst_slots r : list (list byte)) (i : nat) (s d : list byte) :
  (∀ x y : DType, Load x = Load y) →
  reduce_slots nbytes tsrc tdst src_slots dst_slots = Some r →
  src_slots !! i = Some s → dst_slots !! i = Some d →
  ∃ a b d', decode construct s = Some a ∧ decode construct d = Some b
            ∧ encode (Reduce b a nbytes) d = Some d' ∧ r !! i = Some d'.
Proof.
  intros Hload. revert tsrc tdst dst_slots r i.
  induction src_slots as [|s0 src_slots IH];
    intros tsrc tdst dst_slots r i Hred Hs Hd; [done|].
  destruct dst_slots as [|d0 dst_slots]; [done|]. cbn [reduce_slots] in Hred.
  destruct (decode tsrc s0) as [a|] eqn:Ha; [|done].
  cbn [mbind option_bind] in Hred.
  destruct (decode tdst d0) as [b|] eqn:Hb; [|done].
  cbn [mbind option_bind] in Hred.
  destruct (encode (Reduce b a nbytes) d0) as [d0'|] eqn:Hd0; [|done].
  cbn [mbind option_bind] in Hred.
  destruct (reduce_slots nbytes a _ src_slots dst_slots) as [rest|] eqn:Hrest;
    [|done].
  injection Hred as <-. destruct i as [|i].
  - injection Hs as <-. injection Hd as <-. exists a, b, d0'.
    unfold decode in *. rewrite <- (Hload construct tsrc) in Ha.
    rewrite <- (Hload construct tdst) in Hb. done.
  - by apply (IH a (Reduce b a nbytes) dst_slots rest i).
Qed.
End SlotFacts.

Lemma Forall_slots (nbytes n : nat) (mem : list byte) :
  n * nbytes ≤ length mem →
  Forall (fun s => length s = nbytes) (slots nbytes n mem).
Proof.
  revert mem. induction n as [|n IH]; intros mem Hb.
  - constructor.
  - rewrite slots_S. constructor.
    + rewrite length_take. lia.
    + apply IH. rewrite length_drop. lia.
Qed.

(** ** The reduction function of the serializing reducer *)

Section SerializeReducerFacts.
Context {DType : Type} `{Serializable DType}.

Lemma int_offset_exact (i nbytes : nat) :
  (Z.of_nat i * Z.of_nat nbytes ≤ max_value Int)%Z →
  int_offset i nbytes = Some (i * nbytes).
Proof.
  intros Hb. unfold int_offset, wrap. cbn [is_signed bit_width].
  change (max_value Int) with (2 ^ 31 - 1)%Z in Hb.
  rewrite Z.mod_small by lia.
  rewrite decide_True by lia. f_equal. lia.
Qed.

Lemma SerializeReducerFunc_from (nbytes n i : nat) (src prefix rest : list byte)
    (tsrc tdst : DType) :
  (Z.of_nat (i + n) * Z.of_nat nbytes ≤ max_value Int)%Z →
  length prefix = i * nbytes →
  n * nbytes ≤ length rest →
  (i + n) * nbytes ≤ length src →
  (fun r : list byte * list byte * DType * DType => (r.1.1.1, r.1.1.2)) <$>
    for_from
      (fun i '(src, dst, tsrc, tdst) =>
         off ← int_offset i nbytes;
         let fsrc := new_MemoryFixSizeBuffer off nbytes in
         let fdst := new_MemoryFixSizeBuffer off nbytes in
         '(tsrc, _) ← run_reader src (Load tsrc) fsrc;
         '(tdst, fdst) ← run_reader dst (Load tdst) fdst;
         let tdst := Reduce tdst tsrc nbytes in
         let fdst := Seek 0 fdst in
         '(dst, _) ← run_writes dst (Save tdst) fdst;
         Some (src, dst, tsrc, tdst))
      i n (src, prefix ++ rest, tsrc, tdst)
  = r ← reduce_slots nbytes tsrc tdst
          (slots nbytes n (drop (i * nbytes) src)) (slots nbytes n rest);
    Some (src, prefix ++ concat r ++ drop (n * nbytes) rest).
Proof.
  revert i prefix rest tsrc tdst.
  induction n as [|n IH]; intros i prefix rest tsrc tdst Hint Hp Hr Hs.
  - simpl. by rewrite drop_0.
  - rewrite !slots_S, (drop_drop src).
    replace (i * nbytes + nbytes) with (S i * nbytes) by lia.
    cbn [for_from reduce_slots].
    rewrite int_offset_exact by nia. cbn [mbind option_bind].
    pose proof (run_reader_decode src tsrc i nbytes ltac:(lia)) as Hsrc.
    rewrite slot_drop in Hsrc. rewrite <- Hsrc. clear Hsrc.
    destruct (run_reader src (Load tsrc) _) as [[tsrc' fs1]|]; [|done].
    cbn [fmap option_fmap option_map mbind option_bind fst].
    pose proof (run_reader_decode (prefix ++ rest) tdst i nbytes
                  ltac:(rewrite length_app; lia)) as Hdst.
    rewrite slot_app in Hdst by done. rewrite <- Hdst. clear Hdst.
    destruct (run_reader (prefix ++ rest) (Load tdst) _)
      as [[tdst' fs2]|] eqn:Hrd; [|done].
    cbn [fmap option_fmap option_map mbind option_bind fst].
    rewrite (Seek_0_after_reader _ _ _ _ _ _ Hrd).
    pose proof (run_writes_encode prefix rest (Reduce tdst' tsrc' nbytes)
                  i nbytes Hp ltac:(lia)) as Hw.
    destruct (run_writes (prefix ++ rest) _ _) as [[dst' fs3]|];
      destruct (encode (Reduce tdst' tsrc' nbytes) (take nbytes rest))
      as [s|] eqn:Henc; try discriminate; [|done].
    cbn [fmap option_fmap option_map mbind option_bind fst] in Hw |- *.
    injection Hw as ->.
    apply length_encode in Henc.
    rewrite length_take, Nat.min_l in Henc by lia.
    rewrite app_assoc.
    rewrite (IH (S i) (prefix ++ s) (drop nbytes rest)).
    + destruct (reduce_slots _ _ _ _ _) as [r|]; [|done].
      cbn [mbind option_bind concat]. rewrite drop_drop, <- !app_assoc.
      do 5 f_equal; lia.
    + replace (S i + n) with (i + S n) by lia. done.
    + rewrite length_app. lia.
    + rewrite length_drop. lia.
    + lia.
Qed.

Lemma for_from_fails {St : Type} (body : nat → St → option St) (i n j : nat)
    (s : St) :
  i ≤ j < i + n → (∀ s', body j s' = None) → for_from body i n s = None.
Proof.
  revert i s. induction n as [|n IH]; intros i s Hj Hfail; [lia|].
  cbn [for_from]. destruct (decide (i = j)) as [->|Hne].
  - by rewrite Hfail.
  - destruct (body i s) as [s'|]; [|done]. cbn [mbind option_bind].
    apply IH; [lia|done].
Qed.

(** A slot whose offset is negative in [int] stops the adapter, whatever
    the slots before it hold. *)
Lemma SerializeReducerFunc_overflow (src dst : list byte) (len : Z)
    (dtype : MPI_Datatype) (j : nat) :
  j < Z.to_nat len → int_offset j (TypeSize dtype) = None →
  SerializeReducerFunc_ src dst len dtype = None.
Proof.
  intros Hj Hoff. unfold SerializeReducerFunc_, for_loop.
  rewrite (for_from_fails _ 0 (Z.to_nat len) j); [done|lia|].
  intros [[[s d] ts] td]. by rewrite Hoff.
Qed.
End SerializeReducerFacts.

(** One-byte objects decode from, and encode into, every slot that is not
    empty. *)
Lemma reduce_slots_bytes (nbytes : nat) (tsrc tdst : byte)
    (src_slots dst_slots : list (list byte)) :
  0 < nbytes →
  Forall (fun s => length s = nbytes) src_slots →
  Forall (fun s => length s = nbytes) dst_slots →
  is_Some (reduce_slots nbytes tsrc tdst src_slots dst_slots).
Proof.
  intros Hpos Hs. revert tsrc tdst dst_slots.
  induction Hs as [|s src_slots Hl _ IH]; intros tsrc tdst dst_slots Hd.
  - by destruct dst_slots.
  - destruct Hd as [|d dst_slots Hld Hd]; [done|].
    cbn [reduce_slots]. unfold decode, encode.
    cbn [Load Save byte_object run_reader concat app length].
    unfold Read, new_MemoryFixSizeBuffer. cbn [curr_ptr_ buffer_size_ p_buffer_].
    rewrite !decide_True by lia. cbn [mbind option_bind fmap option_fmap option_map fst run_reader].
    rewrite decide_True by lia. cbn [mbind option_bind].
    destruct (IH (default x00 (head (take 1 (drop (0 + 0) s))))
                (Reduce (default x00 (head (take 1 (drop (0 + 0) d))))
                   (default x00 (head (take 1 (drop (0 + 0) s)))) nbytes)
                dst_slots Hd) as [rest Hrest].
    rewrite Hrest. by eexists.
Qed.

(** C7.  At slot size 2^30 and three slots of one-byte objects the buffers
    hold the nbytes * len bytes the claim asks for and the slot-by-slot
    result it describes exists, but the adapter does not return it: the
    offset of slot 2 is the product 2 * 2^30 taken in int, which is
    2^31 wrapped to -2^31, in front of both buffers. *)
Theorem SerializeReducerFunc_offset_overflow :
  let nbytes := Z.to_nat (2 ^ 30)%Z in
  let dtype := {| type_size := nbytes |} in
  let src := replicate (3 * nbytes)%nat x01 in
  let dst := replicate (3 * nbytes)%nat x00 in
  (Z.to_nat 3%Z * TypeSize dtype ≤ length src
   ∧ Z.to_nat 3%Z * TypeSize dtype ≤ length dst)
  ∧ is_Some (reduce_slots (DType := byte) (TypeSize dtype) construct construct
               (slots (TypeSize dtype) (Z.to_nat 3%Z) src)
               (slots (TypeSize dtype) (Z.to_nat 3%Z) dst))
  ∧ wrap Int (2 * Z.of_nat (TypeSize dtype))%Z = (- 2 ^ 31)%Z
  ∧ SerializeReducerFunc_ (DType := byte) src dst 3%Z dtype = None.
Proof.
  intros nbytes dtype src dst.
  change (TypeSize dtype) with nbytes. change (Z.to_nat 3%Z) with 3%nat.
  assert (Z.of_nat nbytes = 2 ^ 30)%Z as Hn by (apply Z2Nat.id; lia).
  assert (length src = (3 * nbytes)%nat) as Hsrc by apply length_replicate.
  assert (length dst = (3 * nbytes)%nat) as Hdst by apply length_replicate.
  clearbody nbytes src dst.
  split; [lia|]. split; [|split].
  - apply reduce_slots_bytes; [lia|apply Forall_slots; lia..].
  - rewrite Hn. reflexivity.
  - apply (SerializeReducerFunc_overflow _ _ _ _ 2); [cbn; lia|].
    unfold int_offset. change (TypeSize dtype) with nbytes.
    change (Z.of_nat 2) with 2%Z. rewrite Hn. reflexivity.
Qed.

Example SerializeReducerFunc_bytes :
  SerializeReducerFunc_ [x01; x00; x09; x00; xff] [x05; xaa; x03; xbb; xcc] 2%Z
    {| type_size := 2 |}
  = Some ([x01; x00; x09; x00; xff], [x05; xaa; x09; xbb; xcc]).
Proof. vm_compute. reflexivity. Qed.

(** ** The serializing reducer *)

Lemma size_t_mul_exact (a b : nat) :
  (N.of_nat (a * b) < size_t_modulus)%N → size_t_mul a b = a * b.
Proof.
  intros Hb. unfold size_t_mul. rewrite <- Nat2N.inj_mul.
  rewrite N.mod_small by done. apply Nat2N.id.
Qed.

Lemma run_writes_length (chunks : list (list byte)) (mem mem' : list byte)
    (fs fs' : MemoryFixSizeBuffer) :
  run_writes mem chunks fs = Some (mem', fs') → length mem' = length mem.
Proof.
  revert mem fs. induction chunks as [|data rest IH]; intros mem fs Hrun.
  - by injection Hrun as <- _.
  - simpl in Hrun. unfold Write in Hrun.
    repeat case_decide; simpl in Hrun; try discriminate.
    + by apply IH in Hrun.
    + apply IH in Hrun. rewrite Hrun. apply length_splice. lia.
Qed.

Section SerializeReducerLoops.
Context {DType : Type} `{Serializable DType} {U : Type}.

Lemma SerializeReducerFunc_from_length (nbytes n i : nat) (src dst : list byte)
    (tsrc tdst : DType) (r : list byte * list byte * DType * DType) :
  for_from
    (fun i '(src, dst, tsrc, tdst) =>
       off ← int_offset i nbytes;
       let fsrc := new_MemoryFixSizeBuffer off nbytes in
       let fdst := new_MemoryFixSizeBuffer off nbytes in
       '(tsrc, _) ← run_reader src (Load tsrc) fsrc;
       '(tdst, fdst) ← run_reader dst (Load tdst) fdst;
       let tdst := Reduce tdst tsrc nbytes in
       let fdst := Seek 0 fdst in
       '(dst, _) ← run_writes dst (Save tdst) fdst;
       Some (src, dst, tsrc, tdst))
    i n (src, dst, tsrc, tdst) = Some r →
  length r.1.1.2 = length dst.
Proof.
  revert i dst tsrc tdst.
  induction n as [|n IH]; intros i dst tsrc tdst Hrun.
  - simpl in Hrun. by injection Hrun as <-.
  - cbn [for_from] in Hrun.
    destruct (int_offset i nbytes) as [off|]; [|done].
    cbn [mbind option_bind] in Hrun.
    destruct (run_reader src (Load tsrc) _) as [[tsrc' fs1]|]; [|done].
    cbn [mbind option_bind] in Hrun.
    destruct (run_reader dst (Load tdst) _) as [[tdst' fs2]|]; [|done].
    cbn [mbind option_bind] in Hrun.
    destruct (run_writes dst _ _) as [[d1 fs3]|] eqn:Hw; [|done].
    cbn [mbind option_bind] in Hrun.
    apply run_writes_length in Hw. apply IH in Hrun. congruence.
Qed.

Lemma SerializeReducerFunc_length (src dst src' dst' : list byte) (len : Z)
    (dtype : MPI_Datatype) :
  SerializeReducerFunc_ src dst len dtype = Some (src', dst') →
  length dst' = length dst.
Proof.
  unfold SerializeReducerFunc_, for_loop. intros Hrun.
  destruct (for_from _ 0 _ _) as [r|] eqn:Hloop; [|done].
  apply SerializeReducerFunc_from_length in Hloop.
  simpl in Hrun. injection Hrun as _ <-. done.
Qed.

Lemma combine_peers_length (type_nbytes count : nat) (peers : list (list byte))
    (buf r : list byte) :
  combine_peers (SerializeReducerFunc_ (DType := DType)) type_nbytes count
    peers buf = Some r →
  length r = length buf.
Proof.
  revert buf. induction peers as [|src rest IH]; intros buf Hc; simpl in Hc.
  - by injection Hc as <-.
  - destruct (SerializeReducerFunc_ src buf _ _) as [[s' d']|] eqn:Hred; [|done].
    simpl in Hc. apply IH in Hc. apply SerializeReducerFunc_length in Hred.
    congruence.
Qed.

Lemma length_encode_objs (nbytes : nat) (objs : list DType) (mem : list byte)
    (ss : list (list byte)) :
  length objs * nbytes ≤ length mem →
  encode_objs objs (slots nbytes (length objs) mem) = Some ss →
  length (concat ss) = length objs * nbytes.
Proof.
  revert mem ss. induction objs as [|obj objs IH]; intros mem ss Hb Henc.
  - by injection Henc as <-.
  - cbn [length] in Henc. rewrite slots_S in Henc. cbn [encode_objs] in Henc.
    destruct (encode obj (take nbytes mem)) as [s|] eqn:Hs; [|done].
    cbn [mbind option_bind] in Henc.
    destruct (encode_objs objs _) as [rest|] eqn:Hrest; [|done].
    injection Henc as <-. cbn [length] in Hb.
    apply IH in Hrest; [|rewrite length_drop; lia].
    apply length_encode in Hs. rewrite length_take in Hs.
    cbn [concat length]. rewrite length_app. lia.
Qed.

(** The loop of [Run]: the objects from index [i] on are encoded into
    the slots from [i] on. *)
Lemma save_loop (max_nbyte n i : nat) (u : caller DType U)
    (prefix rest : list byte) (tr : list step) :
  i + n ≤ length (sendrecvbuf_ u) →
  length prefix = i * max_nbyte →
  n * max_nbyte ≤ length rest →
  for_from
    (fun i (m : memory) =>
       let fs := new_MemoryFixSizeBuffer (i * max_nbyte) max_nbyte in
       obj ← sendrecvobj m !! i;
       '(buf, _) ← run_writes (buffer_ m) (Save obj) fs;
       Some (record (DoSave i) (set_buffer buf m)))
    i n (Memory u (prefix ++ rest) tr)
  = ss ← encode_objs (take n (drop i (sendrecvbuf_ u))) (slots max_nbyte n rest);
    Some (Memory u (prefix ++ concat ss ++ drop (n * max_nbyte) rest)
            (tr ++ map DoSave (seq i n))).
Proof.
  revert i prefix rest tr.
  induction n as [|n IH]; intros i prefix rest tr Hobjs Hp Hr.
  - simpl. by rewrite drop_0, app_nil_r.
  - destruct (lookup_lt_is_Some_2 (sendrecvbuf_ u) i ltac:(lia)) as [obj Hobj].
    rewrite (drop_S _ _ _ Hobj), slots_S.
    cbn [for_from take encode_objs].
    change (sendrecvobj (Memory u (prefix ++ rest) tr)) with (sendrecvbuf_ u).
    cbn [buffer_]. rewrite Hobj.
    cbn [mbind option_bind].
    pose proof (run_writes_encode prefix rest obj i max_nbyte Hp ltac:(lia)) as Hw.
    destruct (run_writes (prefix ++ rest) _ _) as [[buf fs]|];
      destruct (encode obj (take max_nbyte rest)) as [s|] eqn:Henc;
      try discriminate; [|done].
    cbn [fmap option_fmap option_map mbind option_bind fst] in Hw |- *.
    injection Hw as ->.
    apply length_encode in Henc.
    rewrite length_take, Nat.min_l in Henc by lia.
    unfold record, set_buffer. cbn [user buffer_ trace].
    rewrite app_assoc.
    rewrite (IH (S i) (prefix ++ s) (drop max_nbyte rest));
      [|lia|rewrite length_app; lia|rewrite length_drop; lia].
    destruct (encode_objs _ _) as [ss|]; [|done].
    cbn [mbind option_bind concat map seq].
    rewrite drop_drop, <- !app_assoc. cbn [app].
    replace (max_nbyte + n * max_nbyte) with (S n * max_nbyte) by lia. done.
Qed.

(** The loop after the engine call: the objects from index [i] on are
    decoded from the slots from [i] on. *)
Lemma load_loop (max_nbyte n i : nat) (done rest : list DType) (p : U)
    (buf : list byte) (tr : list step) :
  length done = i →
  n ≤ length rest →
  (i + n) * max_nbyte ≤ length buf →
  for_from
    (fun i (m : memory) =>
       let fs := new_MemoryFixSizeBuffer (i * max_nbyte) max_nbyte in
       obj ← sendrecvobj m !! i;
       '(obj, _) ← run_reader (buffer_ m) (Load obj) fs;
       Some (record (DoLoad i) (set_obj i obj m)))
    i n (Memory (Caller (done ++ rest) p) buf tr)
  = objs ← decode_objs (take n rest)
             (slots max_nbyte n (drop (i * max_nbyte) buf));
    Some (Memory (Caller (done ++ objs ++ drop n rest) p) buf
            (tr ++ map DoLoad (seq i n))).
Proof.
  revert i done rest tr.
  induction n as [|n IH]; intros i done rest tr Hd Hn Hb.
  - simpl. by rewrite drop_0, app_nil_r.
  - destruct rest as [|obj rest]; [simpl in Hn; lia|].
    rewrite slots_S, (drop_drop buf).
    replace (i * max_nbyte + max_nbyte) with (S i * max_nbyte) by lia.
    cbn [for_from take decode_objs].
    change (sendrecvobj (Memory (Caller (done ++ obj :: rest) p) buf tr))
      with (done ++ obj :: rest).
    cbn [buffer_].
    rewrite (list_lookup_middle done rest obj i) by done.
    cbn [mbind option_bind].
    pose proof (run_reader_decode buf obj i max_nbyte ltac:(lia)) as Hrd.
    rewrite slot_drop in Hrd. rewrite <- Hrd. clear Hrd.
    destruct (run_reader buf (Load obj) _) as [[obj' fs]|]; [|done].
    cbn [fmap option_fmap option_map mbind option_bind fst].
    unfold record, set_obj, set_user, sendrecvobj.
    cbn [user buffer_ trace sendrecvbuf_ private].
    rewrite (insert_app_r_alt done (obj :: rest) i obj') by lia.
    replace (i - length done) with 0 by lia. cbn [insert list_insert].
    rewrite (cons_middle obj' done rest), app_assoc.
    rewrite (IH (S i) (done ++ [obj']) rest);
      [|rewrite length_app; simpl; lia|simpl in Hn; lia|lia].
    destruct (decode_objs _ _) as [objs|]; [|done].
    cbn [mbind option_bind map seq drop].
    rewrite <- !app_assoc. done.
Qed.
End SerializeReducerLoops.

Section SerializeReducerAllreduce.
Context {DType : Type} `{Serializable DType} {U : Type}.

(** [Run]: the caller's function once, if there is one, and then every
    object into its slot. *)
Lemma Run_spec (nbyte n : nat)
    (prepare : option (PreprocFunction (caller DType U)))
    (u : caller DType U) (buf : list byte) (tr : list step) :
  (∀ u', invoke prepare u = Some u' →
         length (sendrecvbuf_ u') = length (sendrecvbuf_ u)) →
  n ≤ length (sendrecvbuf_ u) →
  length buf = nbyte * n →
  Run {| max_nbyte := nbyte; count := n; prepare_fun := prepare |}
    (Memory u buf tr)
  = u' ← invoke prepare u;
    ss ← encode_objs (take n (sendrecvbuf_ u')) (slots nbyte n buf);
    Some (Memory u' (concat ss) (tr ++ closure_steps prepare n)).
Proof.
  intros Hkeep Hn Hbuf. unfold Run, closure_steps, for_loop.
  cbn [max_nbyte count prepare_fun user].
  assert (∀ (u' : caller DType U) (tr' : list step),
    n ≤ length (sendrecvbuf_ u') →
    for_from
      (fun i (m : memory) =>
         let fs := new_MemoryFixSizeBuffer (i * nbyte) nbyte in
         obj ← sendrecvobj m !! i;
         '(b, _) ← run_writes (buffer_ m) (Save obj) fs;
         Some (record (DoSave i) (set_buffer b m)))
      0 n (Memory u' buf tr')
    = ss ← encode_objs (take n (sendrecvbuf_ u')) (slots nbyte n buf);
      Some (Memory u' (concat ss) (tr' ++ map DoSave (seq 0 n)))) as Hloop.
  { intros u' tr' Hn'.
    pose proof (save_loop nbyte n 0 u' [] buf tr' Hn' eq_refl ltac:(lia)) as Hs.
    change ([] ++ buf) with buf in Hs. etrans; [exact Hs|].
    rewrite drop_0, (drop_ge buf) by lia.
    destruct (encode_objs _ _); [|done]. simpl. by rewrite app_nil_r. }
  destruct prepare as [f|]; cbn [invoke].
  - destruct (f u) as [u'|] eqn:Hf; [|done].
    cbn [mbind option_bind]. unfold record, set_user. cbn [user buffer_ trace].
    rewrite Hloop by (rewrite (Hkeep u' Hf); lia).
    destruct (encode_objs _ _); [|done]. simpl. by rewrite <- app_assoc.
  - cbn [mbind option_bind]. rewrite Hloop by done.
    by destruct (encode_objs _ _).
Qed.

(** The loop after the engine call. *)
Lemma load_phase (nbyte n : nat) (u : caller DType U) (buf : list byte)
    (tr : list step) :
  n ≤ length (sendrecvbuf_ u) →
  n * nbyte ≤ length buf →
  for_loop n
    (fun i (m : memory) =>
       let fs := new_MemoryFixSizeBuffer (i * nbyte) nbyte in
       obj ← sendrecvobj m !! i;
       '(obj, _) ← run_reader (buffer_ m) (Load obj) fs;
       Some (record (DoLoad i) (set_obj i obj m)))
    (Memory u buf tr)
  = objs ← decode_objs (take n (sendrecvbuf_ u)) (slots nbyte n buf);
    Some (Memory (Caller (objs ++ drop n (sendrecvbuf_ u)) (private u)) buf
            (tr ++ map DoLoad (seq 0 n))).
Proof.
  intros Hn Hbuf. destruct u as [objs p]. cbn [sendrecvbuf_ private] in *.
  pose proof (load_loop nbyte n 0 [] objs p buf tr eq_refl Hn ltac:(lia)) as Hl.
  change ([] ++ objs) with objs in Hl. unfold for_loop.
  etrans; [exact Hl|]. by rewrite drop_0.
Qed.

(** The three phases of the call: resize, the engine with the closure,
    and the loads. *)
Lemma Allreduce_phases (env : call_env byte) (nbyte n : nat)
    (prepare : option (PreprocFunction (caller DType U))) (m : memory) :
  (N.of_nat (nbyte * n) < size_t_modulus)%N →
  n ≤ length (sendrecvobj m) →
  (∀ u', invoke prepare (user m) = Some u' →
         length (sendrecvbuf_ u') = length (sendrecvobj m)) →
  (∀ result, env = CachedResult result → length result = nbyte * n) →
  let scratch := resize (nbyte * n) x00 (buffer_ m) in
  let resized := trace m ++ [DoResize (nbyte * n)] in
  length scratch = nbyte * n
  ∧ SerializeReducer_Allreduce (ReduceHandle_Allreduce env) nbyte n prepare m
    = match env with
      | NoCachedResult peers =>
          u ← invoke prepare (user m);
          ss ← encode_objs (take n (sendrecvbuf_ u)) (slots nbyte n scratch);
          b ← combine_peers SerializeReducerFunc_ nbyte n peers (concat ss);
          objs ← decode_objs (take n (sendrecvbuf_ u)) (slots nbyte n b);
          Some (Memory (Caller (objs ++ drop n (sendrecvbuf_ u)) (private u)) b
                  (resized ++ closure_steps prepare n ++ map DoLoad (seq 0 n)))
      | CachedResult result =>
          objs ← decode_objs (take n (sendrecvobj m)) (slots nbyte n result);
          Some (Memory (Caller (objs ++ drop n (sendrecvobj m)) (private (user m)))
                  result (resized ++ map DoLoad (seq 0 n)))
      end.
Proof.
  intros Hsize Hn Hkeep Hcached scratch resized.
  assert (length scratch = nbyte * n) as Hscratch by apply length_resize.
  split; [done|].
  unfold SerializeReducer_Allreduce. rewrite size_t_mul_exact by done.
  fold scratch. unfold record, set_buffer. cbn [user buffer_ trace].
  fold resized. destruct env as [result|peers].
  - unfold ReduceHandle_Allreduce, engine_Allreduce.
    cbn [mbind option_bind assign BeginPtr_buffer].
    unfold set_buffer. cbn [user buffer_ trace].
    apply load_phase; [done|]. rewrite (Hcached result eq_refl). lia.
  - unfold ReduceHandle_Allreduce, engine_Allreduce. cbn [invoke Invoke].
    rewrite Run_spec by done.
    destruct (invoke prepare (user m)) as [u|] eqn:Hu; [|done].
    cbn [mbind option_bind].
    destruct (encode_objs _ _) as [ss|] eqn:Hss; [|done].
    cbn [mbind option_bind deref assign BeginPtr_buffer buffer_].
    destruct (combine_peers _ _ _ _ _) as [b|] eqn:Hb; [|done].
    cbn [mbind option_bind]. unfold set_buffer. cbn [user buffer_ trace].
    pose proof (Hkeep u eq_refl) as Hlen.
    assert (length (concat ss) = n * nbyte) as Hconcat.
    { assert (length (take n (sendrecvbuf_ u)) = n) as Htake
        by (rewrite length_take; unfold sendrecvobj in *; lia).
      pose proof (length_encode_objs nbyte (take n (sendrecvbuf_ u)) scratch ss)
        as Hc.
      rewrite Htake in Hc. apply Hc; [lia|done]. }
    apply combine_peers_length in Hb.
    rewrite load_phase by lia.
    destruct (decode_objs _ _); [|done]. simpl. by rewrite <- !app_assoc.
Qed.

(** C1.  The scratch buffer has max_nbyte * count bytes.  When no cached
    result exists the closure runs: prepare_fun once, if it is not null,
    before any save, then object i into slot i for every i < count; after
    the engine's combination every object i is loaded from slot i.  On a
    cached replay neither prepare_fun nor any save happens, and the
    objects are loaded from the slots of the cached result. *)
Theorem SerializeReducer_Allreduce_steps (env : call_env byte) (nbyte n : nat)
    (prepare : option (PreprocFunction (caller DType U))) (m : memory) :
  (N.of_nat (nbyte * n) < size_t_modulus)%N →
  n ≤ length (sendrecvobj m) →
  (∀ u', invoke prepare (user m) = Some u' →
         length (sendrecvbuf_ u') = length (sendrecvobj m)) →
  (∀ result, env = CachedResult result → length result = nbyte * n) →
  let scratch := resize (nbyte * n) x00 (buffer_ m) in
  let resized := trace m ++ [DoResize (nbyte * n)] in
  length scratch = nbyte * n
  ∧ SerializeReducer_Allreduce (ReduceHandle_Allreduce env) nbyte n prepare m
    = match env with
      | NoCachedResult peers =>
          u ← invoke prepare (user m);
          ss ← encode_objs (take n (sendrecvbuf_ u)) (slots nbyte n scratch);
          b ← combine_peers SerializeReducerFunc_ nbyte n peers (concat ss);
          objs ← decode_objs (take n (sendrecvbuf_ u)) (slots nbyte n b);
          Some (Memory (Caller (objs ++ drop n (sendrecvbuf_ u)) (private u)) b
                  (resized ++ closure_steps prepare n ++ map DoLoad (seq 0 n)))
      | CachedResult result =>
          objs ← decode_objs (take n (sendrecvobj m)) (slots nbyte n result);
          Some (Memory (Caller (objs ++ drop n (sendrecvobj m)) (private (user m)))
                  result (resized ++ map DoLoad (seq 0 n)))
      end.
Proof. apply Allreduce_phases. Qed.
End SerializeReducerAllreduce.

Lemma SerializeReducer_Allreduce_steps_witness :
  let env := NoCachedResult [[x05; x00; x03; x00]] in
  let prepare : option (PreprocFunction (caller byte unit)) :=
    Some (prepare_first x04) in
  let m := Memory (Caller [x01; x09] tt) [] [] in
  let scratch := resize (2 * 2) x00 (buffer_ m) in
  let resized := trace m ++ [DoResize (2 * 2)] in
  ((N.of_nat (2 * 2) < size_t_modulus)%N
   ∧ 2 ≤ length (sendrecvobj m)
   ∧ (∀ u', invoke prepare (user m) = Some u' →
            length (sendrecvbuf_ u') = length (sendrecvobj m))
   ∧ (∀ result, env = CachedResult result → length result = 2 * 2))
  ∧ length scratch = 2 * 2
  ∧ SerializeReducer_Allreduce (ReduceHandle_Allreduce env) 2 2 prepare m
    = (u ← invoke prepare (user m);
       ss ← encode_objs (take 2 (sendrecvbuf_ u)) (slots 2 2 scratch);
       b ← combine_peers SerializeReducerFunc_ 2 2 [[x05; x00; x03; x00]]
             (concat ss);
       objs ← decode_objs (take 2 (sendrecvbuf_ u)) (slots 2 2 b);
       Some (Memory (Caller (objs ++ drop 2 (sendrecvbuf_ u)) (private u)) b
               (resized ++ closure_steps prepare 2 ++ map DoLoad (seq 0 2)))).
Proof.
  intros env prepare m scratch resized.
  assert (∀ u', invoke prepare (user m) = Some u' →
                length (sendrecvbuf_ u') = length (sendrecvobj m)) as Hkeep.
  { intros u' [= <-]. reflexivity. }
  assert (∀ result, env = CachedResult result → length result = 2 * 2)
    as Hcached by (intros result [=]).
  split; [split; [reflexivity|split; [cbv; lia|split; [exact Hkeep|exact Hcached]]]|].
  apply (SerializeReducer_Allreduce_steps env 2 2 prepare m);
    [reflexivity | cbv; lia | exact Hkeep | exact Hcached].
Defined.

(** The run of the witness, and the same call replayed from a cache. *)
Example SerializeReducer_Allreduce_fresh :
  SerializeReducer_Allreduce
    (ReduceHandle_Allreduce (NoCachedResult [[x05; x00; x03; x00]])) 2 2
    (Some (prepare_first x04)) (Memory (Caller [x01; x09] tt) [] [])
  = Some (Memory (Caller [x05; x09] tt) [x05; x00; x09; x00]
            [DoResize 4; DoPrepare; DoSave 0; DoSave 1; DoLoad 0; DoLoad 1]).
Proof. vm_compute. reflexivity. Qed.

Example SerializeReducer_Allreduce_replay :
  SerializeReducer_Allreduce
    (ReduceHandle_Allreduce (CachedResult [x05; x00; x09; x00])) 2 2
    (Some (prepare_first x04)) (Memory (Caller [x01; x09] tt) [] [])
  = Some (Memory (Caller [x05; x09] tt) [x05; x00; x09; x00]
            [DoResize 4; DoLoad 0; DoLoad 1]).
Proof. vm_compute. reflexivity. Qed.

(** ** A group of one participant *)

Lemma slots_concat (nbytes : nat) (ss : list (list byte)) :
  Forall (fun s => length s = nbytes) ss →
  slots nbytes (length ss) (concat ss) = ss.
Proof.
  induction 1 as [|s ss Hs _ IH]; [done|].
  cbn [length concat]. rewrite slots_S.
  rewrite take_app_length' by done.
  rewrite drop_app_length' by done. by rewrite IH.
Qed.

Section SingleParticipant.
Context {DType : Type} `{Serializable DType}.

(** Under the round-trip law, what was encoded into slots is decoded from
    them, whatever the receiving objects held. *)
Lemma encode_decode_objs (nbytes : nat) (objs recv : list DType)
    (sl ss : list (list byte)) :
  round_trip nbytes →
  length recv = length objs →
  length sl = length objs →
  Forall (fun s => length s = nbytes) sl →
  encode_objs objs sl = Some ss →
  length ss = length objs
  ∧ Forall (fun s => length s = nbytes) ss
  ∧ decode_objs recv ss = Some objs.
Proof.
  intros Hrt. revert recv sl ss.
  induction objs as [|obj objs IH]; intros recv sl ss Hrecv Hsl Hall Henc.
  - injection Henc as <-. by destruct recv.
  - destruct recv as [|r recv]; [done|]. destruct sl as [|s sl]; [done|].
    apply Forall_cons in Hall as [Hs Hall]. cbn [encode_objs] in Henc.
    destruct (encode obj s) as [s'|] eqn:Hobj; [|done].
    cbn [mbind option_bind] in Henc.
    destruct (encode_objs objs sl) as [rest|] eqn:Hrest; [|done].
    injection Henc as <-.
    destruct (IH recv sl rest) as (Hlen & Hss & Hdecs);
      [simpl in *; lia..|done|done|].
    cbn [decode_objs length].
    rewrite (Hrt obj r s s' Hs Hobj), Hdecs. cbn [mbind option_bind].
    split; [lia|]. split; [|done].
    constructor; [|done]. apply length_encode in Hobj. lia.
Qed.

(** With one participant the objects go through the scratch buffer and
    come back: the call fails when prepare_fun fails or an object does not
    fit its slot, and otherwise returns the objects as prepare_fun left
    them. *)
Lemma single_participant_objects {U : Type} (nbyte n : nat)
    (prepare : option (PreprocFunction (caller DType U))) (mem : memory) :
  round_trip nbyte →
  (N.of_nat (nbyte * n) < size_t_modulus)%N →
  n ≤ length (sendrecvobj mem) →
  (∀ u', invoke prepare (user mem) = Some u' →
         length (sendrecvbuf_ u') = length (sendrecvobj mem)) →
  user <$> SerializeReducer_Allreduce
             (ReduceHandle_Allreduce single_participant) nbyte n prepare mem
  = u ← invoke prepare (user mem);
    _ ← encode_objs (take n (sendrecvbuf_ u))
          (slots nbyte n (resize (nbyte * n) x00 (buffer_ mem)));
    Some u.
Proof.
  intros Hrt Hsize Hn Hkeep.
  destruct (Allreduce_phases single_participant nbyte n prepare mem)
    as [Hscratch ->]; [done..|].
  unfold single_participant.
  destruct (invoke prepare (user mem)) as [u|] eqn:Hu; [|done].
  cbn [mbind option_bind].
  pose proof (Hkeep u eq_refl) as Hlen. unfold sendrecvobj in *.
  destruct (encode_objs _ _) as [ss|] eqn:Henc; [|done].
  destruct (encode_decode_objs nbyte (take n (sendrecvbuf_ u))
              (take n (sendrecvbuf_ u))
              (slots nbyte n (resize (nbyte * n) x00 (buffer_ mem))) ss)
    as (Hss & Hall & Hdec);
    [done|done|rewrite length_slots, length_take; lia| |done|].
  { apply Forall_slots. rewrite length_resize. lia. }
  cbn [mbind option_bind combine_peers].
  rewrite length_take, Nat.min_l in Hss by lia.
  rewrite <- Hss at 2. rewrite slots_concat, Hdec by done.
  cbn [mbind option_bind fmap option_fmap option_map user].
  rewrite take_drop. by destruct u.
Qed.
End SingleParticipant.

(** The round-trip law of the two example types.  A sequence of more than
    nbytes - 1 bytes does not fit a slot of nbytes bytes; the law holds
    all the same. *)
Lemma byte_round_trip (nbytes : nat) : round_trip (DType := byte) nbytes.
Proof.
  intros x y s s' Hs Henc. unfold encode in Henc.
  cbn [Save byte_object concat app length] in Henc.
  case_decide as Hfit; [|done]. injection Henc as <-.
  unfold decode. cbn [Load byte_object run_reader].
  unfold Read, new_MemoryFixSizeBuffer.
  cbn [curr_ptr_ buffer_size_ p_buffer_ length app].
  rewrite !decide_True by lia. reflexivity.
Qed.

Lemma blob_round_trip (nbytes : nat) :
  nbytes ≤ 256 → round_trip (DType := list byte) nbytes.
Proof.
  intros Hsmall x y s s' Hs Henc. unfold encode in Henc.
  cbn [Save blob_object concat] in Henc. rewrite app_nil_r in Henc.
  cbn [app length] in Henc.
  case_decide as Hfit; [|done]. injection Henc as <-.
  destruct (Byte.of_N (N.of_nat (length x))) as [b|] eqn:Hb.
  2: { apply Byte.of_N_None_iff in Hb. lia. }
  apply Byte.to_of_N in Hb. cbn [default].
  unfold decode. cbn [Load blob_object run_reader].
  unfold Read, new_MemoryFixSizeBuffer.
  cbn [curr_ptr_ buffer_size_ p_buffer_ length app advance].
  rewrite !decide_True by (rewrite ?length_app, ?length_drop; lia).
  cbn [mbind option_bind drop take head default Nat.add].
  unfold Read, advance, id. cbn [curr_ptr_ buffer_size_ p_buffer_ Nat.add].
  rewrite Hb, Nat2N.id.
  rewrite !decide_True by (rewrite ?length_app, ?length_drop; lia).
  cbn [mbind option_bind fmap option_fmap option_map fst drop Nat.add].
  by rewrite drop_0, take_app_length.
Qed.


Example single_participant_prepared :
  (Allreduce op.SumOp (Integral Int) (engine_Allreduce_ single_participant)
     the_buffer 1 (Some (prepare_first 5%Z)))
    ≫= (fun run => run (Caller [0%Z] tt))
  = Some (Caller [5%Z] tt).
Proof. reflexivity. Qed.

(** Objects of different lengths that fit their slots come back as they
    were given; one that does not fit stops the call. *)
Example single_participant_blobs :
  user <$> SerializeReducer_Allreduce
             (ReduceHandle_Allreduce single_participant) 4 2 None
             (Memory (Caller [[x07]; [x08; x09; x0a]] tt) [] [])
  = Some (Caller [[x07]; [x08; x09; x0a]] tt)
  ∧ SerializeReducer_Allreduce
      (ReduceHandle_Allreduce single_participant) 4 2 None
      (Memory (Caller [[x07]; [x08; x09; x0a; x0b]] tt) [] [])
    = None.
Proof. split; vm_compute; reflexivity. Qed.



(** The scenario of the specification: four participants hold 0, 1, 2 and
    3; participant 0 ends with their sum. *)
Example Allreduce_Sum_four_participants :
  (Allreduce op.SumOp (Integral Int)
     (engine_Allreduce_ (NoCachedResult [[1%Z]; [2%Z]; [3%Z]])) the_buffer 1 None)
    ≫= (fun run => run (Caller [0%Z] tt))
  = Some (Caller [6%Z] tt).
Proof. reflexivity. Qed.

(** * Further properties of the code *)

(** ** Wire tags *)

(** X1.  GetType gives different element types different wire tags: the tag
    a participant announces determines the element type. *)
Theorem GetType_injective (T1 T2 : scalar) :
  GetType T1 = GetType T2 → T1 = T2.
Proof.
  destruct T1 as [[]|[]], T2 as [[]|[]]; simpl; intros Heq;
    first [reflexivity | discriminate Heq].
Qed.

Lemma GetType_injective_witness :
  GetType (Integral UInt) = GetType (Integral UInt)
  ∧ Integral UInt = Integral UInt.
Proof.
  split; [reflexivity|].
  apply (GetType_injective (Integral UInt) (Integral UInt)). reflexivity.
Defined.

(** ** The bulk reducer at the integer types *)

Local Open Scope Z_scope.

Lemma integer_combine_laws (o : op.OP) (t : int_type) (combine : Z → Z → Z) :
  op.Reduce o (Integral t) = Some combine →
  (∀ a b c, combine (combine a b) c = combine a (combine b c))
  ∧ (∀ a b, combine a b = combine b a).
Proof.
  intros Hop. destruct o; simpl in Hop; injection Hop as <-.
  - split; intros; rewrite !Max_Reduce_Z; lia.
  - split; intros; rewrite !Min_Reduce_Z; lia.
  - unfold op.Sum.Reduce. simpl. split; intros.
    + rewrite wrap_add_l, wrap_add_r. f_equal. lia.
    + f_equal. lia.
  - unfold op.BitOR.Reduce. split; intros;
      [by rewrite Z.lor_assoc | apply Z.lor_comm].
Qed.

Local Open Scope nat_scope.

(** X2.  At an integer type the bulk reducer keeps buffers inside the range
    of the type: from values of the type it only produces values of the
    type, for each of the four operators. *)
Theorem Reducer_keeps_range (o : op.OP) (t : int_type) (reduce : Z → Z → Z)
    (src dst : list Z) (len : Z) (dtype : MPI_Datatype) :
  op.Reduce o (Integral t) = Some reduce →
  Z.to_nat len ≤ length src →
  Z.to_nat len ≤ length dst →
  Forall (in_range t) src →
  Forall (in_range t) dst →
  ∃ dst', op.Reducer reduce src dst len dtype = Some (src, dst')
          ∧ Forall (in_range t) dst'.
Proof.
  intros Hop Hs Hd Hsrc Hdst.
  destruct (Reducer_spec reduce src dst len dtype Hs Hd)
    as (dst' & Hrun & Hlen & Hin & Hout).
  exists dst'. split; [done|].
  apply Forall_lookup. intros i x Hx.
  destruct (decide (i < Z.to_nat len)) as [Hi|Hi].
  - destruct (lookup_lt_is_Some_2 dst i ltac:(lia)) as [d Hdi].
    destruct (lookup_lt_is_Some_2 src i ltac:(lia)) as [s Hsi].
    rewrite (Hin i d s Hi Hdi Hsi) in Hx. injection Hx as <-.
    apply (Reduce_in_range o t reduce d s Hop).
    + by apply (Forall_lookup_1 _ _ _ _ Hdst Hdi).
    + by apply (Forall_lookup_1 _ _ _ _ Hsrc Hsi).
  - rewrite Hout in Hx by lia. by apply (Forall_lookup_1 _ _ _ _ Hdst Hx).
Qed.

Lemma Reducer_keeps_range_witness :
  let reduce := op.Sum.Reduce (Integral Char) in
  let src := [100; 1]%Z in
  let dst := [100; -128; 5]%Z in
  let dtype := {| type_size := 1 |} in
  (op.Reduce op.SumOp (Integral Char) = Some reduce
   ∧ Z.to_nat 2 ≤ length src ∧ Z.to_nat 2 ≤ length dst
   ∧ Forall (in_range Char) src ∧ Forall (in_range Char) dst)
  ∧ ∃ dst', op.Reducer reduce src dst 2%Z dtype = Some (src, dst')
            ∧ Forall (in_range Char) dst'.
Proof.
  intros reduce src dst dtype.
  assert (Forall (in_range Char) src) as Hsrc
    by (repeat constructor; cbv; discriminate).
  assert (Forall (in_range Char) dst) as Hdst
    by (repeat constructor; cbv; discriminate).
  split; [split; [reflexivity|split; [cbv; lia|split; [cbv; lia|done]]]|].
  apply (Reducer_keeps_range op.SumOp Char reduce src dst 2%Z dtype);
    [reflexivity | cbv; lia | cbv; lia | exact Hsrc | exact Hdst].
Defined.

Lemma Reducer_twice_spec {A : Type} (reduce : A → A → A)
    (src1 src2 dst : list A) (len : Z) (dtype : MPI_Datatype) :
  Z.to_nat len ≤ length src1 → Z.to_nat len ≤ length src2 →
  Z.to_nat len ≤ length dst →
  ∃ dst', Reducer_twice reduce src1 src2 dst len dtype = Some dst'
    ∧ length dst' = length dst
    ∧ (∀ i d s1 s2, i < Z.to_nat len → dst !! i = Some d →
         src1 !! i = Some s1 → src2 !! i = Some s2 →
         dst' !! i = Some (reduce (reduce d s1) s2))
    ∧ (∀ i, Z.to_nat len ≤ i → dst' !! i = dst !! i).
Proof.
  intros H1 H2 Hd. unfold Reducer_twice.
  destruct (Reducer_spec reduce src1 dst len dtype H1 Hd)
    as (d1 & -> & Hl1 & Hin1 & Hout1).
  cbn [mbind option_bind snd].
  destruct (Reducer_spec reduce src2 d1 len dtype H2 ltac:(lia))
    as (d2 & -> & Hl2 & Hin2 & Hout2).
  exists d2. cbn [fmap option_fmap option_map snd].
  split; [done|]. split; [lia|]. split.
  - intros i d s1 s2 Hi Hdi Hs1 Hs2.
    apply (Hin2 i _ s2 Hi); [|done]. by apply (Hin1 i d s1).
  - intros i Hi. by rewrite Hout2, Hout1.
Qed.

(** X3.  At an integer type the order of two sources does not matter:
    reducing a buffer with src1 and then src2 gives the buffer that
    reducing it with src2 and then src1 gives. *)
Theorem Reducer_sources_commute (o : op.OP) (t : int_type) (reduce : Z → Z → Z)
    (src1 src2 dst : list Z) (len : Z) (dtype : MPI_Datatype) :
  op.Reduce o (Integral t) = Some reduce →
  Z.to_nat len ≤ length src1 →
  Z.to_nat len ≤ length src2 →
  Z.to_nat len ≤ length dst →
  ∃ dst', Reducer_twice reduce src1 src2 dst len dtype = Some dst'
          ∧ Reducer_twice reduce src2 src1 dst len dtype = Some dst'.
Proof.
  intros Hop H1 H2 Hd.
  destruct (integer_combine_laws o t reduce Hop) as [Hassoc Hcomm].
  destruct (Reducer_twice_spec reduce src1 src2 dst len dtype H1 H2 Hd)
    as (a & Ha & Hla & Hina & Houta).
  destruct (Reducer_twice_spec reduce src2 src1 dst len dtype H2 H1 Hd)
    as (b & Hb & Hlb & Hinb & Houtb).
  exists a. split; [done|]. rewrite Hb. f_equal.
  apply list_eq. intros i.
  destruct (decide (i < Z.to_nat len)) as [Hi|Hi].
  - destruct (lookup_lt_is_Some_2 dst i ltac:(lia)) as [d Hdi].
    destruct (lookup_lt_is_Some_2 src1 i ltac:(lia)) as [s1 Hs1].
    destruct (lookup_lt_is_Some_2 src2 i ltac:(lia)) as [s2 Hs2].
    rewrite (Hina i d s1 s2 Hi Hdi Hs1 Hs2), (Hinb i d s2 s1 Hi Hdi Hs2 Hs1).
    f_equal. by rewrite !Hassoc, (Hcomm s1 s2).
  - by rewrite Houta, Houtb by lia.
Qed.

Lemma Reducer_sources_commute_witness :
  let reduce := op.Sum.Reduce (Integral Int) in
  let src1 := [2147483647; 4]%Z in
  let src2 := [1; -9]%Z in
  let dst := [5; 6; 7]%Z in
  let dtype := {| type_size := 4 |} in
  (op.Reduce op.SumOp (Integral Int) = Some reduce
   ∧ Z.to_nat 2 ≤ length src1 ∧ Z.to_nat 2 ≤ length src2
   ∧ Z.to_nat 2 ≤ length dst)
  ∧ ∃ dst', Reducer_twice reduce src1 src2 dst 2%Z dtype = Some dst'
            ∧ Reducer_twice reduce src2 src1 dst 2%Z dtype = Some dst'.
Proof.
  intros reduce src1 src2 dst dtype.
  split; [split; [reflexivity|split; [cbv; lia|split; cbv; lia]]|].
  apply (Reducer_sources_commute op.SumOp Int reduce src1 src2 dst 2%Z dtype);
    [reflexivity | cbv; lia..].
Defined.

(** X4.  At an integer type two sources can be combined first: reducing a
    buffer with src1 and then src2 gives what reducing it once with src1
    reduced by src2 gives. *)
Theorem Reducer_sources_group (o : op.OP) (t : int_type) (reduce : Z → Z → Z)
    (src1 src2 dst : list Z) (len : Z) (dtype : MPI_Datatype) :
  op.Reduce o (Integral t) = Some reduce →
  Z.to_nat len ≤ length src1 →
  Z.to_nat len ≤ length src2 →
  Z.to_nat len ≤ length dst →
  ∃ src12 dst',
    op.Reducer reduce src2 src1 len dtype = Some (src2, src12)
    ∧ op.Reducer reduce src12 dst len dtype = Some (src12, dst')
    ∧ Reducer_twice reduce src1 src2 dst len dtype = Some dst'.
Proof.
  intros Hop H1 H2 Hd.
  destruct (integer_combine_laws o t reduce Hop) as [Hassoc _].
  destruct (Reducer_spec reduce src2 src1 len dtype H2 H1)
    as (src12 & Hrun12 & Hl12 & Hin12 & _).
  destruct (Reducer_spec reduce src12 dst len dtype ltac:(lia) Hd)
    as (dst' & Hrun & Hl & Hin & Hout).
  destruct (Reducer_twice_spec reduce src1 src2 dst len dtype H1 H2 Hd)
    as (a & Ha & Hla & Hina & Houta).
  exists src12, dst'. split; [done|]. split; [done|].
  rewrite Ha. f_equal. apply list_eq. intros i.
  destruct (decide (i < Z.to_nat len)) as [Hi|Hi].
  - destruct (lookup_lt_is_Some_2 dst i ltac:(lia)) as [d Hdi].
    destruct (lookup_lt_is_Some_2 src1 i ltac:(lia)) as [s1 Hs1].
    destruct (lookup_lt_is_Some_2 src2 i ltac:(lia)) as [s2 Hs2].
    rewrite (Hina i d s1 s2 Hi Hdi Hs1 Hs2).
    rewrite (Hin i d (reduce s1 s2) Hi Hdi (Hin12 i s1 s2 Hi Hs1 Hs2)).
    by rewrite Hassoc.
  - by rewrite Houta, Hout by lia.
Qed.

Lemma Reducer_sources_group_witness :
  let reduce := op.BitOR.Reduce UChar in
  let src1 := [1; 4]%Z in
  let src2 := [2; 8]%Z in
  let dst := [16; 32; 64]%Z in
  let dtype := {| type_size := 1 |} in
  (op.Reduce op.BitOROp (Integral UChar) = Some reduce
   ∧ Z.to_nat 2 ≤ length src1 ∧ Z.to_nat 2 ≤ length src2
   ∧ Z.to_nat 2 ≤ length dst)
  ∧ ∃ src12 dst',
      op.Reducer reduce src2 src1 2%Z dtype = Some (src2, src12)
      ∧ op.Reducer reduce src12 dst 2%Z dtype = Some (src12, dst')
      ∧ Reducer_twice reduce src1 src2 dst 2%Z dtype = Some dst'.
Proof.
  intros reduce src1 src2 dst dtype.
  split; [split; [reflexivity|split; [cbv; lia|split; cbv; lia]]|].
  apply (Reducer_sources_group op.BitOROp UChar reduce src1 src2 dst 2%Z dtype);
    [reflexivity | cbv; lia..].
Defined.

(** ** NaN under Max and Min *)

(** X5.  At float and double a NaN in src never replaces dst, and a NaN in
    dst is never replaced: Max and Min drop a NaN that arrives and keep one
    that is already there. *)
Theorem NaN_dropped_from_src_kept_in_dst (t : float_type) (x : spec_float) :
  op.Max.Reduce (Floating t) x S754_nan = x
  ∧ op.Min.Reduce (Floating t) x S754_nan = x
  ∧ op.Max.Reduce (Floating t) S754_nan x = S754_nan
  ∧ op.Min.Reduce (Floating t) S754_nan x = S754_nan.
Proof.
  unfold op.Max.Reduce, op.Min.Reduce. simpl. unfold SFltb.
  by destruct x as [s|s| |s m e].
Qed.

(** ** Zero as a source *)

Local Open Scope Z_scope.

(** X6.  A source of zeros changes nothing under Sum and BitOR at an integer
    type: a participant that contributes zeros leaves a buffer of values of
    the type as it is. *)
Theorem Reducer_zero_source (o : op.OP) (t : int_type) (reduce : Z → Z → Z)
    (m : nat) (dst : list Z) (len : Z) (dtype : MPI_Datatype) :
  o = op.SumOp ∨ o = op.BitOROp →
  op.Reduce o (Integral t) = Some reduce →
  (Z.to_nat len ≤ m)%nat →
  (Z.to_nat len ≤ length dst)%nat →
  Forall (in_range t) dst →
  op.Reducer reduce (replicate m 0) dst len dtype = Some (replicate m 0, dst).
Proof.
  intros Ho Hop Hm Hd Hdst.
  destruct (Reducer_spec reduce (replicate m 0) dst len dtype)
    as (dst' & -> & Hlen & Hin & Hout); [rewrite length_replicate; lia|done|].
  do 2 f_equal. apply list_eq. intros i.
  destruct (decide (i < Z.to_nat len)%nat) as [Hi|Hi]; [|apply Hout; lia].
  destruct (lookup_lt_is_Some_2 dst i ltac:(lia)) as [d Hdi].
  rewrite (Hin i d 0 Hi Hdi) by (apply lookup_replicate_2; lia).
  rewrite Hdi. f_equal.
  pose proof (Forall_lookup_1 _ _ _ _ Hdst Hdi) as Hr.
  destruct Ho as [-> | ->]; simpl in Hop; injection Hop as <-.
  - unfold op.Sum.Reduce. simpl. rewrite Z.add_0_r. by apply wrap_small.
  - unfold op.BitOR.Reduce. apply Z.lor_0_r.
Qed.

Lemma Reducer_zero_source_witness :
  let reduce := op.Sum.Reduce (Integral UChar) in
  let dst := [255; 0; 7] in
  let dtype := {| type_size := 1 |} in
  ((op.SumOp = op.SumOp ∨ op.SumOp = op.BitOROp)
   ∧ op.Reduce op.SumOp (Integral UChar) = Some reduce
   ∧ (Z.to_nat 3 ≤ 4)%nat ∧ (Z.to_nat 3 ≤ length dst)%nat
   ∧ Forall (in_range UChar) dst)
  ∧ op.Reducer reduce (replicate 4 0) dst 3 dtype = Some (replicate 4 0, dst).
Proof.
  intros reduce dst dtype.
  assert (Forall (in_range UChar) dst) as Hdst
    by (repeat constructor; cbv; discriminate).
  split; [split; [by left|split; [reflexivity|split; [cbv; lia|split; [cbv; lia|done]]]]|].
  apply (Reducer_zero_source op.SumOp UChar reduce 4 dst 3 dtype);
    [by left | reflexivity | cbv; lia | cbv; lia | exact Hdst].
Defined.

(** ** Broadcast delivers the root's container *)

Local Open Scope nat_scope.

Lemma to_N_byte_of_N (n : N) : Byte.to_N (byte_of_N n) = (n mod 256)%N.
Proof.
  unfold byte_of_N.
  destruct (Byte.of_N (n mod 256)) as [b|] eqn:Hb.
  - simpl. by apply Byte.to_of_N.
  - apply Byte.of_N_None_iff in Hb.
    pose proof (N.mod_upper_bound n 256 ltac:(done)). lia.
Qed.

Lemma le_value_le_bytes (k : nat) (n : N) :
  le_value (le_bytes k n) = (n mod 256 ^ N.of_nat k)%N.
Proof.
  revert n. induction k as [|k IH]; intros n.
  - simpl. by rewrite N.mod_1_r.
  - cbn [le_bytes le_value]. rewrite IH, to_N_byte_of_N.
    rewrite Nat2N.inj_succ, N.pow_succ_r'.
    rewrite N.Div0.mod_mul_r. lia.
Qed.

Lemma length_le_bytes (k : nat) (n : N) : length (le_bytes k n) = k.
Proof. revert n. induction k as [|k IH]; intros n; simpl; [done|by rewrite IH]. Qed.

(** A [size_t] read back from its object representation. *)
Lemma decode_encode_size_t (n : nat) :
  (N.of_nat n < size_t_modulus)%N → decode_size_t (encode_size_t n) = n.
Proof.
  intros Hn. unfold decode_size_t, encode_size_t.
  rewrite take_ge by (rewrite length_le_bytes; lia).
  rewrite le_value_le_bytes.
  change (256 ^ N.of_nat sizeof_size_t)%N with size_t_modulus.
  rewrite N.mod_small by done. apply Nat2N.id.
Qed.

Lemma write_region_same_length (region received : list byte) :
  length received = length region → write_region region received = received.
Proof.
  intros Hl. unfold write_region. rewrite <- Hl. apply take_app_length.
Qed.

Lemma size_t_mul_1_r (n : nat) :
  (N.of_nat n < size_t_modulus)%N → size_t_mul n 1 = n.
Proof. intros Hn. rewrite size_t_mul_exact; [lia|]. by rewrite Nat.mul_1_r. Qed.

(** X7.  Whatever string a participant holds, after Broadcast it holds the
    root's string: when the engine delivers the root's length and then the
    root's characters, the local string is resized if its length differs
    and ends equal to the root's. *)
Theorem Broadcast_string_delivers {E : Type}
    (engine_Broadcast : list byte → nat → Z → E → list byte * E)
    (local from_root : list byte) (root : Z) (e e1 e2 : E) (tr : list event) :
  (N.of_nat (length from_root) < size_t_modulus)%N →
  engine_Broadcast (encode_size_t (length local)) sizeof_size_t root e
  = (encode_size_t (length from_root), e1) →
  (∀ data, length data = length from_root →
           engine_Broadcast data (length from_root) root e1 = (from_root, e2)) →
  Broadcast_string engine_Broadcast local root (e, tr)
  = (from_root,
     (if decide (length from_root = 0) then e1 else e2,
      tr ++ [EvBroadcast sizeof_size_t root]
         ++ (if decide (length local = length from_root) then []
             else [EvResize (length from_root)])
         ++ (if decide (length from_root = 0) then []
             else [EvBroadcast (length from_root) root]))).
Proof.
  intros Hlen Hsize Hpayload. unfold Broadcast_string, Broadcast, log.
  cbn [fst snd]. rewrite Hsize.
  rewrite write_region_same_length by (unfold encode_size_t; by rewrite !length_le_bytes).
  rewrite decode_encode_size_t by done.
  destruct (decide (length local ≠ length from_root)) as [Hne|Heq].
  - rewrite !(decide_False (P := length local = length from_root)) by done.
    cbn [fst snd].
    destruct (decide (length from_root ≠ 0)) as [Hnz|Hz].
    + rewrite !(decide_False (P := length from_root = 0)) by done.
      rewrite size_t_mul_1_r by done.
      rewrite Hpayload by apply length_resize.
      rewrite write_region_same_length by (by rewrite length_resize).
      cbn [fst snd]. by rewrite <- !app_assoc.
    + apply dec_stable in Hz. rewrite !(decide_True (P := length from_root = 0)) by done.
      rewrite Hz. apply nil_length_inv in Hz. subst from_root.
      rewrite resize_0, app_nil_r. by rewrite <- !app_assoc.
  - apply dec_stable in Heq.
    rewrite !(decide_True (P := length local = length from_root)) by done.
    destruct (decide (length from_root ≠ 0)) as [Hnz|Hz].
    + rewrite !(decide_False (P := length from_root = 0)) by done.
      rewrite size_t_mul_1_r by done.
      rewrite Hpayload by done.
      rewrite write_region_same_length by done.
      cbn [fst snd]. by rewrite <- !app_assoc.
    + apply dec_stable in Hz. rewrite !(decide_True (P := length from_root = 0)) by done.
      rewrite Hz in Heq. apply nil_length_inv in Hz, Heq. subst.
      cbn [fst snd]. by rewrite <- ?app_assoc, ?app_nil_r.
Qed.

Lemma Broadcast_string_delivers_witness :
  let from_root := String.list_byte_of_string "config-v1"%string in
  let local := [x41; x42] in
  let e := [encode_size_t 9; from_root] in
  ((N.of_nat (length from_root) < size_t_modulus)%N
   ∧ receiving_engine (encode_size_t (length local)) sizeof_size_t 0%Z e
     = (encode_size_t (length from_root), [from_root])
   ∧ (∀ data, length data = length from_root →
              receiving_engine data (length from_root) 0%Z [from_root]
              = (from_root, [])))
  ∧ Broadcast_string receiving_engine local 0%Z (e, [])
    = (from_root,
       (if decide (length from_root = 0) then [from_root] else [],
        [] ++ [EvBroadcast sizeof_size_t 0%Z]
           ++ (if decide (length local = length from_root) then []
               else [EvResize (length from_root)])
           ++ (if decide (length from_root = 0) then []
               else [EvBroadcast (length from_root) 0%Z]))).
Proof.
  intros from_root local e.
  split; [split; [reflexivity|split; [reflexivity|intros data _; reflexivity]]|].
  apply (Broadcast_string_delivers receiving_engine local from_root 0%Z e
           [from_root] [] []);
    [reflexivity | reflexivity | intros data _; reflexivity].
Defined.

(** ** Object representations of vectors *)

Section Layout.
Context {A : Type} `{FixedLayout A}.
Hypothesis laws : layout_laws A.

Lemma length_vector_bytes (v : list A) :
  length (vector_bytes v) = length v * elem_size.
Proof.
  destruct laws as [Hsize _]. unfold vector_bytes.
  induction v as [|x v IH]; [done|].
  cbn [map concat length]. rewrite length_app, Hsize, IH. lia.
Qed.

Lemma vector_bytes_element (v : list A) (i : nat) (x : A) :
  v !! i = Some x →
  take elem_size (drop (i * elem_size) (vector_bytes v)) = to_bytes x.
Proof.
  destruct laws as [Hsize _]. unfold vector_bytes.
  revert i. induction v as [|y v IH]; intros i Hx; [done|].
  cbn [map concat]. destruct i as [|i].
  - injection Hx as ->. rewrite Nat.mul_0_l, drop_0.
    by rewrite take_app_length' by (by rewrite Hsize).
  - rewrite drop_app_ge by (rewrite Hsize; lia).
    rewrite Hsize. replace (S i * elem_size - elem_size) with (i * elem_size) by lia.
    by apply IH.
Qed.

Lemma vector_bytes_insert (v : list A) (i : nat) (y : A) :
  i < length v →
  splice (vector_bytes v) (i * elem_size) (to_bytes y)
  = vector_bytes (<[i := y]> v).
Proof.
  destruct laws as [Hsize _]. unfold vector_bytes.
  revert i. induction v as [|x v IH]; intros i Hi; [simpl in Hi; lia|].
  cbn [map concat]. destruct i as [|i].
  - change (<[0:=y]> (x :: v)) with (y :: v). cbn [map concat]. unfold splice.
    rewrite Nat.mul_0_l, take_0, Nat.add_0_l.
    rewrite drop_app_length' by (by rewrite !Hsize). done.
  - change (<[S i:=y]> (x :: v)) with (x :: <[i:=y]> v).
    cbn [map concat]. rewrite <- (IH i) by (simpl in Hi; lia).
    unfold splice.
    rewrite take_app_ge by (rewrite Hsize; lia).
    rewrite drop_app_ge by (rewrite !Hsize; lia).
    rewrite !Hsize, <- app_assoc.
    replace (S i * elem_size - elem_size) with (i * elem_size) by lia.
    replace (S i * elem_size + elem_size - elem_size)
      with (i * elem_size + elem_size) by lia.
    done.
Qed.

Lemma vector_of_bytes_vector_bytes (v : list A) :
  vector_of_bytes (length v) (vector_bytes v) = v.
Proof.
  destruct laws as [_ Hround]. unfold vector_of_bytes.
  apply list_eq. intros i. rewrite list_lookup_fmap.
  destruct (decide (i < length v)) as [Hi|Hi].
  - rewrite lookup_seq_lt by done. simpl.
    destruct (lookup_lt_is_Some_2 v i Hi) as [x Hx].
    by rewrite (vector_bytes_element v i x Hx), Hround, Hx.
  - rewrite lookup_seq_ge by lia. simpl. symmetry. apply lookup_ge_None. lia.
Qed.
End Layout.

Lemma char_layout_laws : layout_laws byte.
Proof. split; intros x; reflexivity. Qed.

(** X8.  Whatever vector a participant holds, after Broadcast it holds the
    root's vector, element for element: when the engine delivers the root's
    length and then the bytes of the root's elements, the local vector is
    resized if its size differs and ends equal to the root's. *)
Theorem Broadcast_vector_delivers {E A : Type} `{FixedLayout A}
    (engine_Broadcast : list byte → nat → Z → E → list byte * E)
    (local from_root : list A) (root : Z) (e e1 e2 : E) (tr : list event) :
  layout_laws A →
  (N.of_nat (length from_root) < size_t_modulus)%N →
  (N.of_nat (length from_root * elem_size) < size_t_modulus)%N →
  engine_Broadcast (encode_size_t (length local)) sizeof_size_t root e
  = (encode_size_t (length from_root), e1) →
  (∀ data, length data = length from_root * elem_size →
           engine_Broadcast data (length from_root * elem_size) root e1
           = (vector_bytes from_root, e2)) →
  Broadcast_vector engine_Broadcast local root (e, tr)
  = (from_root,
     (if decide (length from_root = 0) then e1 else e2,
      tr ++ [EvBroadcast sizeof_size_t root]
         ++ (if decide (length local = length from_root) then []
             else [EvResize (length from_root)])
         ++ (if decide (length from_root = 0) then []
             else [EvBroadcast (length from_root * elem_size) root]))).
Proof.
  intros Hlaws Hlen Hbytes Hsize Hpayload.
  unfold Broadcast_vector, Broadcast, log. cbn [fst snd]. rewrite Hsize.
  rewrite write_region_same_length
    by (unfold encode_size_t; by rewrite !length_le_bytes).
  rewrite decode_encode_size_t by done.
  destruct (decide (length local ≠ length from_root)) as [Hne|Heq].
  - rewrite !(decide_False (P := length local = length from_root)) by done.
    cbn [fst snd].
    destruct (decide (length from_root ≠ 0)) as [Hnz|Hz].
    + rewrite !(decide_False (P := length from_root = 0)) by done.
      rewrite size_t_mul_exact by done.
      rewrite Hpayload by (by rewrite length_vector_bytes, length_resize).
      rewrite write_region_same_length
        by (by rewrite !length_vector_bytes, length_resize).
      rewrite vector_of_bytes_vector_bytes by done.
      cbn [fst snd]. by rewrite <- !app_assoc.
    + apply dec_stable in Hz.
      rewrite !(decide_True (P := length from_root = 0)) by done.
      rewrite Hz. apply nil_length_inv in Hz. subst from_root.
      rewrite resize_0, app_nil_r. by rewrite <- !app_assoc.
  - apply dec_stable in Heq.
    rewrite !(decide_True (P := length local = length from_root)) by done.
    destruct (decide (length from_root ≠ 0)) as [Hnz|Hz].
    + rewrite !(decide_False (P := length from_root = 0)) by done.
      rewrite size_t_mul_exact by done.
      rewrite Hpayload by (by rewrite length_vector_bytes, Heq).
      rewrite write_region_same_length by (by rewrite !length_vector_bytes, Heq).
      rewrite vector_of_bytes_vector_bytes by done.
      cbn [fst snd]. by rewrite <- !app_assoc.
    + apply dec_stable in Hz.
      rewrite !(decide_True (P := length from_root = 0)) by done.
      rewrite Hz in Heq. apply nil_length_inv in Hz, Heq. subst.
      cbn [fst snd]. by rewrite <- ?app_assoc, ?app_nil_r.
Qed.

Lemma Broadcast_vector_delivers_witness :
  let from_root := [x07; x08; x09] in
  let local := [x01] in
  let e := [encode_size_t 3; from_root] in
  (layout_laws byte
   ∧ (N.of_nat (length from_root) < size_t_modulus)%N
   ∧ (N.of_nat (length from_root * elem_size) < size_t_modulus)%N
   ∧ receiving_engine (encode_size_t (length local)) sizeof_size_t 0%Z e
     = (encode_size_t (length from_root), [from_root])
   ∧ (∀ data, length data = length from_root * elem_size →
              receiving_engine data (length from_root * elem_size) 0%Z [from_root]
              = (vector_bytes from_root, [])))
  ∧ Broadcast_vector receiving_engine local 0%Z (e, [])
    = (from_root,
       (if decide (length from_root = 0) then [from_root] else [],
        [] ++ [EvBroadcast sizeof_size_t 0%Z]
           ++ (if decide (length local = length from_root) then []
               else [EvResize (length from_root)])
           ++ (if decide (length from_root = 0) then []
               else [EvBroadcast (length from_root * elem_size) 0%Z]))).
Proof.
  intros from_root local e.
  split; [split; [exact char_layout_laws|split; [reflexivity|split;
    [reflexivity|split; [reflexivity|intros data _; reflexivity]]]]|].
  apply (Broadcast_vector_delivers receiving_engine local from_root 0%Z e
           [from_root] [] []);
    [exact char_layout_laws | reflexivity | reflexivity | reflexivity
    | intros data _; reflexivity].
Defined.

(** ** The message of TrackerPrintf *)

(** X9.  The message TrackerPrintf hands to TrackerPrint is always
    NUL-terminated: its last byte is NUL, and when the formatted output has
    fewer than 1024 characters the output is a prefix of the message and
    the byte right behind it is NUL. *)
Theorem TrackerPrintf_terminated {Fmt Args : Type}
    (format : Fmt → Args → list byte) (fmt : Fmt) (args : Args) :
  let formatted := format fmt args in
  let msg := TrackerPrintf format (fun msg => msg) fmt args in
  msg !! 1023 = Some x00
  ∧ (if decide (length formatted < 1024)
     then take (length formatted) msg = formatted
          ∧ msg !! length formatted = Some x00
     else take 1023 msg = take 1023 formatted).
Proof.
  intros formatted msg. subst msg.
  unfold TrackerPrintf, TrackerPrint. change kPrintBuffer with 1024.
  unfold vsnprintf. fold formatted. rewrite drop_replicate.
  set (k := Nat.min (length formatted) 1023).
  assert (length (take k formatted) = k) as Hk
    by (rewrite length_take; subst k; lia).
  split.
  - rewrite lookup_app_r by lia. rewrite Hk.
    change ([x00] ++ ?l) with (replicate 1 x00 ++ l).
    rewrite <- replicate_add. apply lookup_replicate_2. subst k. lia.
  - case_decide as Hlt.
    + assert (k = length formatted) as Hkf by (subst k; lia).
      rewrite Hkf in *. rewrite firstn_all. split.
      * by rewrite take_app_length.
      * rewrite lookup_app_r by lia. by rewrite Nat.sub_diag.
    + assert (k = 1023) as -> by (subst k; lia).
      by rewrite take_app_length' by done.
Qed.

(** ** The reduction function of the fixed-layout reducer *)

Section ReducerFuncFacts.
Context {DType : Type} `{FixedLayout DType}.
Variable reduce : DType → DType → DType.
Hypothesis laws : layout_laws DType.

Lemma ReducerFunc_from (src : list DType) (n i : nat) (dst : list DType) :
  i + n ≤ length src → i + n ≤ length dst →
  for_from
    (fun i '(psrc, pdst) =>
       tdst ← of_bytes <$> memcpy_from pdst (i * elem_size) elem_size;
       tsrc ← of_bytes <$> memcpy_from psrc (i * elem_size) elem_size;
       let tdst := reduce tdst tsrc in
       pdst ← memcpy_to pdst (i * elem_size) (to_bytes tdst);
       Some (psrc, pdst))
    i n (vector_bytes src, vector_bytes dst)
  = (fun r : list DType * list DType => (vector_bytes r.1, vector_bytes r.2)) <$>
      for_from
        (fun i '(src, dst) =>
           d ← dst !! i; s ← src !! i; Some (src, <[i := reduce d s]> dst))
        i n (src, dst).
Proof.
  destruct laws as [Hsize Hround].
  revert i dst. induction n as [|n IH]; intros i dst Hs Hd; [done|].
  destruct (lookup_lt_is_Some_2 dst i ltac:(lia)) as [d Hdi].
  destruct (lookup_lt_is_Some_2 src i ltac:(lia)) as [s Hsi].
  cbn [for_from]. rewrite Hdi, Hsi. cbn [mbind option_bind].
  unfold memcpy_from, memcpy_to.
  rewrite !length_vector_bytes by done.
  rewrite !decide_True by nia.
  cbn [fmap option_fmap option_map mbind option_bind].
  rewrite (vector_bytes_element laws dst i d Hdi).
  rewrite (vector_bytes_element laws src i s Hsi).
  rewrite !Hround, Hsize.
  rewrite decide_True by nia.
  cbn [mbind option_bind].
  rewrite (vector_bytes_insert laws dst i (reduce d s)) by lia.
  apply IH; [lia|rewrite length_insert; lia].
Qed.
End ReducerFuncFacts.

(** X10.  On the object representations of two arrays the reduction function
    of the fixed-layout reducer does what the bulk reducer does on the
    arrays: element i < len of dst becomes dst[i].Reduce(src[i]), the other
    elements and src stay. *)
Theorem ReducerFunc_elementwise {DType : Type} `{FixedLayout DType}
    (reduce : DType → DType → DType) (src dst : list DType) (len : Z)
    (dtype : MPI_Datatype) :
  layout_laws DType →
  Z.to_nat len ≤ length src →
  Z.to_nat len ≤ length dst →
  ∃ dst',
    op.Reducer reduce src dst len dtype = Some (src, dst')
    ∧ ReducerFunc_ reduce (vector_bytes src) (vector_bytes dst) len dtype
      = Some (vector_bytes src, vector_bytes dst').
Proof.
  intros Hlaws Hs Hd.
  destruct (Reducer_spec reduce src dst len dtype Hs Hd) as (dst' & Hrun & _).
  exists dst'. split; [done|].
  unfold ReducerFunc_, for_loop.
  etrans; [exact (ReducerFunc_from reduce Hlaws src (Z.to_nat len) 0 dst
                    ltac:(lia) ltac:(lia))|].
  unfold op.Reducer, for_loop in Hrun. by rewrite Hrun.
Qed.

Lemma ReducerFunc_elementwise_witness :
  let src := [x05; x01; xff] in
  let dst := [x03; x09; x00; x0a] in
  let dtype := {| type_size := 1 |} in
  (layout_laws byte ∧ Z.to_nat 3 ≤ length src ∧ Z.to_nat 3 ≤ length dst)
  ∧ ∃ dst',
      op.Reducer byte_max src dst 3%Z dtype = Some (src, dst')
      ∧ ReducerFunc_ byte_max (vector_bytes src) (vector_bytes dst) 3%Z dtype
        = Some (vector_bytes src, vector_bytes dst').
Proof.
  intros src dst dtype.
  split; [split; [exact char_layout_laws|split; cbv; lia]|].
  apply (ReducerFunc_elementwise byte_max src dst 3%Z dtype);
    [exact char_layout_laws | cbv; lia | cbv; lia].
Defined.

Example ReducerFunc_bytes :
  ReducerFunc_ byte_max [x05; x01; xff] [x03; x09; x00; x0a] 3%Z
    {| type_size := 1 |}
  = Some ([x05; x01; xff], [x05; x09; xff; x0a]).
Proof. vm_compute. reflexivity. Qed.

(** ** The std::function overloads *)

(** X11.  The std::function overload has no "no prepare" case: the engine
    always gets the non-null InvokeLambda_, so with no cached result an
    empty std::function is called and the call fails, where the pointer
    overload with a null prepare_fun succeeds; on a cached replay the empty
    function is never called; and a non-empty one behaves as the same
    function given to the pointer overload. *)
Theorem empty_function_is_called (o : op.OP) (T : scalar)
    (reduce : dval T → dval T → dval T) (U : Type)
    (peers : list (list (dval T))) (cached : list (dval T)) (count : nat)
    (f : PreprocFunction (caller (dval T) U)) (m : caller (dval T) U) :
  op.Reduce o T = Some reduce →
  (Allreduce_cxx11 o T (engine_Allreduce_ (NoCachedResult peers)) the_buffer
     count None ≫= (fun run => run m)) = None
  ∧ (Allreduce o T (engine_Allreduce_ (NoCachedResult [])) the_buffer
       count None ≫= (fun run => run m)) = Some m
  ∧ (Allreduce_cxx11 o T (engine_Allreduce_ (CachedResult cached)) the_buffer
       count None ≫= (fun run => run m)) = Some (Caller cached (private m))
  ∧ (Allreduce_cxx11 o T (engine_Allreduce_ (NoCachedResult peers)) the_buffer
       count (Some f) ≫= (fun run => run m))
    = (Allreduce o T (engine_Allreduce_ (NoCachedResult peers)) the_buffer
         count (Some f) ≫= (fun run => run m)).
Proof.
  intros Hop. unfold Allreduce_cxx11, Allreduce. rewrite Hop.
  cbn [mbind option_bind]. unfold engine_Allreduce_, engine_Allreduce.
  cbn [invoke InvokeLambda_ mbind option_bind combine_peers].
  repeat split. by destruct m.
Qed.

Lemma empty_function_is_called_witness :
  let T := Integral Int in
  let m : caller Z unit := Caller [3%Z] tt in
  let f : PreprocFunction (caller Z unit) := prepare_first 5%Z in
  op.Reduce op.SumOp T = Some (op.Sum.Reduce T)
  ∧ (Allreduce_cxx11 op.SumOp T (engine_Allreduce_ (NoCachedResult [[4%Z]]))
       the_buffer 1 None ≫= (fun run => run m)) = None
  ∧ (Allreduce op.SumOp T (engine_Allreduce_ (NoCachedResult [])) the_buffer
       1 None ≫= (fun run => run m)) = Some m
  ∧ (Allreduce_cxx11 op.SumOp T (engine_Allreduce_ (CachedResult [9%Z]))
       the_buffer 1 None ≫= (fun run => run m)) = Some (Caller [9%Z] (private m))
  ∧ (Allreduce_cxx11 op.SumOp T (engine_Allreduce_ (NoCachedResult [[4%Z]]))
       the_buffer 1 (Some f) ≫= (fun run => run m))
    = (Allreduce op.SumOp T (engine_Allreduce_ (NoCachedResult [[4%Z]]))
         the_buffer 1 (Some f) ≫= (fun run => run m)).
Proof.
  intros T m f. split; [reflexivity|].
  apply (empty_function_is_called op.SumOp T (op.Sum.Reduce T) unit [[4%Z]]
           [9%Z] 1 f m).
  reflexivity.
Defined.

(** ** More on the serializing reducer *)

Section SerializeReducerMore.
Context {DType : Type} `{Serializable DType}.

Lemma reduce_slots_lengths (nbytes : nat) (tsrc tdst : DType)
    (src_slots dst_slots r : list (list byte)) :
  reduce_slots nbytes tsrc tdst src_slots dst_slots = Some r →
  Forall (fun s => length s = nbytes) dst_slots →
  Forall (fun s => length s = nbytes) r.
Proof.
  revert tsrc tdst dst_slots r.
  induction src_slots as [|s0 src_slots IH]; intros tsrc tdst dst_slots r Hred Hall.
  - destruct dst_slots; injection Hred as <-; constructor.
  - destruct dst_slots as [|d0 dst_slots]; [injection Hred as <-; constructor|].
    cbn [reduce_slots] in Hred.
    destruct (decode tsrc s0) as [a|]; [|done]. cbn [mbind option_bind] in Hred.
    destruct (decode tdst d0) as [b|]; [|done]. cbn [mbind option_bind] in Hred.
    destruct (encode _ d0) as [d0'|] eqn:Henc; [|done].
    cbn [mbind option_bind] in Hred.
    destruct (reduce_slots nbytes a _ src_slots dst_slots) as [rest|] eqn:Hrest;
      [|done].
    injection Hred as <-. apply Forall_cons in Hall as [Hd0 Hall].
    constructor.
    + apply length_encode in Henc. lia.
    + by apply (IH _ _ _ _ Hrest).
Qed.

Lemma decode_objs_receivers (l1 l2 : list DType) (ss : list (list byte)) :
  (∀ x y : DType, Load x = Load y) →
  length l1 = length l2 →
  decode_objs l1 ss = decode_objs l2 ss.
Proof.
  intros Hload. revert l2 ss.
  induction l1 as [|x l1 IH]; intros l2 ss Hlen.
  - by destruct l2.
  - destruct l2 as [|y l2]; [done|]. destruct ss as [|s ss]; [done|].
    cbn [decode_objs]. unfold decode. rewrite (Hload x y).
    by rewrite (IH l2 ss) by (simpl in Hlen; lia).
Qed.

Lemma length_decode_objs (objs objs' : list DType) (ss : list (list byte)) :
  decode_objs objs ss = Some objs' →
  length objs' = Nat.min (length objs) (length ss).
Proof.
  revert ss objs'. induction objs as [|o objs IH]; intros ss objs' Hdec.
  - by injection Hdec as <-.
  - destruct ss as [|s ss]; [by injection Hdec as <-|].
    cbn [decode_objs] in Hdec.
    destruct (decode o s) as [o'|]; [|done]. cbn [mbind option_bind] in Hdec.
    destruct (decode_objs objs ss) as [rest|] eqn:Hrest; [|done].
    injection Hdec as <-. apply IH in Hrest. simpl. lia.
Qed.
End SerializeReducerMore.

Lemma slot_concat (nbytes i : nat) (r : list (list byte)) (tail d : list byte) :
  Forall (fun s => length s = nbytes) r →
  r !! i = Some d →
  slot nbytes i (concat r ++ tail) = d.
Proof.
  intros Hall. revert i. induction Hall as [|x r Hx _ IH]; intros i Hd; [done|].
  cbn [concat]. destruct i as [|i].
  - injection Hd as ->. unfold slot. rewrite Nat.mul_0_l, drop_0.
    rewrite <- app_assoc. by rewrite take_app_length' by done.
  - unfold slot in *. rewrite <- app_assoc.
    rewrite drop_app_ge by lia. rewrite Hx.
    replace (S i * nbytes - nbytes) with (i * nbytes) by lia.
    by apply IH.
Qed.

(** X12.  On buffers of at least len * nbytes bytes, with len * nbytes
    within int, SerializeReducerFunc_ is the slot-by-slot map: it returns
    src as it was and dst with every slot i < len replaced by the encoding,
    from the first byte of the slot, of tdst.Reduce(tsrc, nbytes) for tdst
    loaded from dst slot i and tsrc loaded from src slot i, the bytes of
    dst behind the last slot as they were; it fails exactly when the load
    or the save of a slot fails.  The two temporaries are declared outside
    the loop and pass from slot to slot in both. *)
Theorem SerializeReducerFunc_within_int {DType : Type} `{Serializable DType}
    (src dst : list byte) (len : Z) (dtype : MPI_Datatype) :
  let nbytes := TypeSize dtype in
  let n := Z.to_nat len in
  (Z.of_nat n * Z.of_nat nbytes ≤ max_value Int)%Z →
  n * nbytes ≤ length src →
  n * nbytes ≤ length dst →
  SerializeReducerFunc_ src dst len dtype
  = r ← reduce_slots nbytes construct construct
          (slots nbytes n src) (slots nbytes n dst);
    Some (src, concat r ++ drop (n * nbytes) dst).
Proof.
  intros nbytes n Hint Hs Hd. unfold SerializeReducerFunc_, for_loop.
  pose proof (SerializeReducerFunc_from nbytes n 0 src [] dst
                construct construct Hint eq_refl Hd ltac:(lia)) as Hloop.
  simpl in Hloop. rewrite drop_0 in Hloop. fold nbytes n. rewrite <- Hloop.
  by destruct (for_from _ 0 n _).
Qed.

Lemma SerializeReducerFunc_within_int_witness :
  let src := [x01; x00; x09; x00; xff] in
  let dst := [x05; xaa; x03; xbb; xcc] in
  let dtype := {| type_size := 2 |} in
  ((Z.of_nat (Z.to_nat 2%Z) * Z.of_nat (TypeSize dtype) ≤ max_value Int)%Z
   ∧ Z.to_nat 2%Z * TypeSize dtype ≤ length src
   ∧ Z.to_nat 2%Z * TypeSize dtype ≤ length dst)
  ∧ SerializeReducerFunc_ (DType := byte) src dst 2%Z dtype
    = r ← reduce_slots (TypeSize dtype) construct construct
            (slots (TypeSize dtype) (Z.to_nat 2%Z) src)
            (slots (TypeSize dtype) (Z.to_nat 2%Z) dst);
      Some (src, concat r ++ drop (Z.to_nat 2%Z * TypeSize dtype) dst).
Proof.
  intros src dst dtype.
  split; [split; [vm_compute; discriminate|split; [cbv; lia|cbv; lia]]|].
  apply (SerializeReducerFunc_within_int (DType := byte) src dst 2%Z dtype);
    [vm_compute; discriminate | cbv; lia | cbv; lia].
Defined.

(** X13.  When Load overwrites the object it is called on, the shared
    temporaries of SerializeReducerFunc_ carry nothing from one slot to the
    next: on buffers of at least len * nbytes bytes, with len * nbytes
    within int, slot i < len of the result of a run that returns is the
    encoding, over the old dst slot i, of the object decoded from dst slot
    i reduced with the object decoded from src slot i. *)
Theorem SerializeReducerFunc_slot {DType : Type} `{Serializable DType}
    (src dst src' dst' : list byte) (len : Z) (dtype : MPI_Datatype) (i : nat) :
  (∀ x y : DType, Load x = Load y) →
  (Z.of_nat (Z.to_nat len) * Z.of_nat (TypeSize dtype) ≤ max_value Int)%Z →
  Z.to_nat len * TypeSize dtype ≤ length src →
  Z.to_nat len * TypeSize dtype ≤ length dst →
  SerializeReducerFunc_ src dst len dtype = Some (src', dst') →
  i < Z.to_nat len →
  ∃ a b : DType,
    decode construct (slot (TypeSize dtype) i src) = Some a
    ∧ decode construct (slot (TypeSize dtype) i dst) = Some b
    ∧ encode (Reduce b a (TypeSize dtype)) (slot (TypeSize dtype) i dst)
      = Some (slot (TypeSize dtype) i dst').
Proof.
  intros Hload Hint Hs Hd Hrun Hi.
  set (nbytes := TypeSize dtype) in *. set (n := Z.to_nat len) in *.
  pose proof (SerializeReducerFunc_from nbytes n 0 src [] dst
                construct construct Hint eq_refl Hd ltac:(lia)) as Hloop.
  simpl in Hloop. rewrite drop_0 in Hloop.
  unfold SerializeReducerFunc_, for_loop in Hrun. fold nbytes n in Hrun.
  destruct (for_from _ 0 n _) as [st|]; [|done].
  cbn [mbind option_bind fmap option_fmap option_map] in Hrun, Hloop.
  injection Hrun as <- <-.
  destruct (reduce_slots nbytes construct construct _ _) as [r|] eqn:Hred;
    [|done].
  cbn [mbind option_bind] in Hloop. injection Hloop as Hsrc Hdst.
  destruct (reduce_slots_lookup nbytes construct construct _ _ r i
              (slot nbytes i src) (slot nbytes i dst) Hload Hred)
    as (a & b & d' & Ha & Hb & Henc & Hr); [by apply slots_lookup..|].
  exists a, b. split; [done|]. split; [done|].
  rewrite Henc. f_equal. rewrite Hdst. symmetry.
  apply slot_concat; [|done].
  apply (reduce_slots_lengths _ _ _ _ _ _ Hred). by apply Forall_slots.
Qed.

Lemma SerializeReducerFunc_slot_witness :
  let src := [x01; x00; x09; x00; xff] in
  let dst := [x05; xaa; x03; xbb; xcc] in
  let dst' := [x05; xaa; x09; xbb; xcc] in
  let dtype := {| type_size := 2 |} in
  ((∀ x y : byte, Load x = Load y)
   ∧ (Z.of_nat (Z.to_nat 2) * Z.of_nat (TypeSize dtype) ≤ max_value Int)%Z
   ∧ Z.to_nat 2 * TypeSize dtype ≤ length src
   ∧ Z.to_nat 2 * TypeSize dtype ≤ length dst
   ∧ SerializeReducerFunc_ (DType := byte) src dst 2%Z dtype = Some (src, dst')
   ∧ 1 < Z.to_nat 2)
  ∧ ∃ a b : byte,
      decode construct (slot (TypeSize dtype) 1 src) = Some a
      ∧ decode construct (slot (TypeSize dtype) 1 dst) = Some b
      ∧ encode (Reduce b a (TypeSize dtype)) (slot (TypeSize dtype) 1 dst)
        = Some (slot (TypeSize dtype) 1 dst').
Proof.
  intros src dst dst' dtype.
  split; [split; [reflexivity|split; [vm_compute; discriminate|split; [cbv; lia|split;
    [cbv; lia|split; [reflexivity|cbv; lia]]]]]|].
  apply (SerializeReducerFunc_slot (DType := byte) src dst src dst' 2%Z dtype 1);
    [reflexivity | vm_compute; discriminate | cbv; lia | cbv; lia | reflexivity
    | cbv; lia].
Defined.

(** X14.  A replay gives the objects of the original run: when Load
    overwrites the object it is called on, running the call again with the
    buffer of a completed run as the cached result loads the same first
    count objects and leaves the same buffer, without invoking prepare_fun:
    the caller's private state and the objects behind count are those the
    replayed call was given. *)
Theorem replay_gives_the_same_objects {DType : Type} `{Serializable DType}
    {U : Type} (peers : list (list byte)) (nbyte n : nat)
    (prepare : option (PreprocFunction (caller DType U)))
    (m fresh : memory) :
  (∀ x y : DType, Load x = Load y) →
  (N.of_nat (nbyte * n) < size_t_modulus)%N →
  n ≤ length (sendrecvobj m) →
  (∀ u', invoke prepare (user m) = Some u' →
         length (sendrecvbuf_ u') = length (sendrecvobj m)) →
  SerializeReducer_Allreduce (ReduceHandle_Allreduce (NoCachedResult peers))
    nbyte n prepare m = Some fresh →
  ∃ replayed,
    SerializeReducer_Allreduce
      (ReduceHandle_Allreduce (CachedResult (buffer_ fresh))) nbyte n prepare m
    = Some replayed
    ∧ take n (sendrecvobj replayed) = take n (sendrecvobj fresh)
    ∧ buffer_ replayed = buffer_ fresh
    ∧ drop n (sendrecvobj replayed) = drop n (sendrecvobj m)
    ∧ private (user replayed) = private (user m)
    ∧ trace replayed = trace m ++ [DoResize (nbyte * n)] ++ map DoLoad (seq 0 n).
Proof.
  intros Hload Hsize Hn Hkeep Hfresh.
  assert (∀ b, length b = nbyte * n →
            SerializeReducer_Allreduce (ReduceHandle_Allreduce (CachedResult b))
              nbyte n prepare m
            = (objs ← decode_objs (take n (sendrecvobj m)) (slots nbyte n b);
               Some (Memory (Caller (objs ++ drop n (sendrecvobj m))
                               (private (user m)))
                       b ((trace m ++ [DoResize (nbyte * n)])
                          ++ map DoLoad (seq 0 n))))) as Hcached.
  { intros b Hb.
    by destruct (Allreduce_phases (CachedResult b) nbyte n prepare m
                   Hsize Hn Hkeep ltac:(by intros r [= <-])) as [_ ->]. }
  destruct (Allreduce_phases (NoCachedResult peers) nbyte n prepare m
              Hsize Hn Hkeep ltac:(intros r [=])) as [Hscratch Hf].
  rewrite Hf in Hfresh. clear Hf.
  destruct (invoke prepare (user m)) as [u|] eqn:Hu; [|done].
  cbn [mbind option_bind] in Hfresh.
  destruct (encode_objs _ _) as [ss|] eqn:Hss; [|done].
  cbn [mbind option_bind] in Hfresh.
  destruct (combine_peers _ _ _ _ _) as [b|] eqn:Hb; [|done].
  cbn [mbind option_bind] in Hfresh.
  destruct (decode_objs _ _) as [objs|] eqn:Hobjs; [|done].
  cbn [mbind option_bind] in Hfresh. injection Hfresh as <-.
  cbn [buffer_ sendrecvobj user sendrecvbuf_].
  pose proof (Hkeep u eq_refl) as Hlen. unfold sendrecvobj in *.
  assert (length (take n (sendrecvbuf_ u)) = n) as Htake
    by (rewrite length_take; lia).
  assert (length b = nbyte * n) as Hblen.
  { apply combine_peers_length in Hb. rewrite Hb.
    pose proof (length_encode_objs nbyte (take n (sendrecvbuf_ u))
                  (resize (nbyte * n) x00 (buffer_ m)) ss) as Hc.
    rewrite Htake in Hc. rewrite Hc; [lia|rewrite length_resize; lia|done]. }
  rewrite (Hcached b Hblen).
  rewrite (decode_objs_receivers (take n (sendrecvbuf_ (user m)))
             (take n (sendrecvbuf_ u)) _ Hload)
    by (rewrite !length_take; lia).
  rewrite Hobjs. cbn [mbind option_bind].
  eexists. split; [reflexivity|].
  cbn [user buffer_ trace sendrecvbuf_ private].
  apply length_decode_objs in Hobjs.
  rewrite Htake, length_slots, Nat.min_id in Hobjs.
  rewrite !take_app_length', !drop_app_length' by done.
  by rewrite <- !app_assoc.
Qed.

Lemma replay_gives_the_same_objects_witness :
  let peers := [[x05; x00; x03; x00]] in
  let prepare : option (PreprocFunction (caller byte unit)) :=
    Some (prepare_first x04) in
  let m := Memory (Caller [x01; x09] tt) [] [] in
  let fresh :=
    Memory (Caller [x05; x09] tt) [x05; x00; x09; x00]
      [DoResize 4; DoPrepare; DoSave 0; DoSave 1; DoLoad 0; DoLoad 1] in
  ((∀ x y : byte, Load x = Load y)
   ∧ (N.of_nat (2 * 2) < size_t_modulus)%N
   ∧ 2 ≤ length (sendrecvobj m)
   ∧ (∀ u', invoke prepare (user m) = Some u' →
            length (sendrecvbuf_ u') = length (sendrecvobj m))
   ∧ SerializeReducer_Allreduce (ReduceHandle_Allreduce (NoCachedResult peers))
       2 2 prepare m = Some fresh)
  ∧ ∃ replayed,
      SerializeReducer_Allreduce
        (ReduceHandle_Allreduce (CachedResult (buffer_ fresh))) 2 2 prepare m
      = Some replayed
      ∧ take 2 (sendrecvobj replayed) = take 2 (sendrecvobj fresh)
      ∧ buffer_ replayed = buffer_ fresh
      ∧ drop 2 (sendrecvobj replayed) = drop 2 (sendrecvobj m)
      ∧ private (user replayed) = private (user m)
      ∧ trace replayed = trace m ++ [DoResize (2 * 2)] ++ map DoLoad (seq 0 2).
Proof.
  intros peers prepare m fresh.
  assert (∀ u', invoke prepare (user m) = Some u' →
                length (sendrecvbuf_ u') = length (sendrecvobj m)) as Hkeep.
  { intros u' [= <-]. reflexivity. }
  split; [split; [reflexivity|split; [reflexivity|split; [cbv; lia|split;
    [exact Hkeep|reflexivity]]]]|].
  apply (replay_gives_the_same_objects peers 2 2 prepare m fresh);
    [reflexivity | reflexivity | cbv; lia | exact Hkeep | reflexivity].
Defined.

(** ** The fixed-layout reducer over the engine *)

Section ReducerAllreduceFacts.
Context {DType : Type} `{FixedLayout DType}.
Variable reduce : DType → DType → DType.
Hypothesis laws : layout_laws DType.

Lemma combine_peers_bytes (type_nbytes count : nat) (peers : list (list DType))
    (buf : list DType) :
  count ≤ length buf →
  Forall (fun p => count ≤ length p) peers →
  combine_peers (ReducerFunc_ reduce) type_nbytes count (vector_bytes <$> peers)
    (vector_bytes buf)
  = vector_bytes <$>
      combine_peers (op.Reducer reduce) type_nbytes count peers buf
  ∧ ∃ r, combine_peers (op.Reducer reduce) type_nbytes count peers buf = Some r
         ∧ length r = length buf.
Proof.
  intros Hbuf Hpeers. revert buf Hbuf.
  induction Hpeers as [|p peers Hp _ IH]; intros buf Hbuf.
  - split; [done|]. by exists buf.
  - cbn [fmap list_fmap combine_peers].
    destruct (Reducer_spec reduce p buf (Z.of_nat count)
                {| type_size := type_nbytes |})
      as (buf' & Hrun & Hlen & _); [rewrite Nat2Z.id; lia..|].
    assert (ReducerFunc_ reduce (vector_bytes p) (vector_bytes buf)
              (Z.of_nat count) {| type_size := type_nbytes |}
            = Some (vector_bytes p, vector_bytes buf')) as Hbytes.
    { unfold ReducerFunc_, for_loop.
      etrans; [exact (ReducerFunc_from reduce laws p (Z.to_nat (Z.of_nat count))
                        0 buf ltac:(rewrite Nat2Z.id; lia)
                        ltac:(rewrite Nat2Z.id; lia))|].
      unfold op.Reducer, for_loop in Hrun. by rewrite Hrun. }
    rewrite Hbytes, Hrun. cbn [mbind option_bind snd].
    destruct (IH buf' ltac:(lia)) as (Heq & r & Hr & Hlr).
    split; [done|]. exists r. split; [done|lia].
Qed.
End ReducerAllreduceFacts.

(** X15.  Reducer<DType>::Allreduce, which hands the engine raw bytes and
    ReducerFunc_<DType>, gives the caller's array what an engine reducing
    the arrays element by element with DType::Reduce gives: prepare_fun
    first, then the peers' arrays combined into the first count elements. *)
Theorem Reducer_Allreduce_elementwise {DType : Type} `{FixedLayout DType}
    {U : Type} (reduce : DType → DType → DType) (peers : list (list DType))
    (count : nat) (prepare_fun : option (PreprocFunction (caller DType U)))
    (m : caller DType U) :
  layout_laws DType →
  (∀ m', invoke prepare_fun m = Some m' → count ≤ length (sendrecvbuf_ m')) →
  Forall (fun p => count ≤ length p) peers →
  Reducer_Allreduce reduce
    (ReduceHandle_Allreduce (NoCachedResult (vector_bytes <$> peers)))
    the_buffer count prepare_fun m
  = engine_Allreduce (NoCachedResult peers) the_buffer elem_size count
      (op.Reducer reduce) prepare_fun m.
Proof.
  intros Hlaws Hprep Hpeers.
  unfold Reducer_Allreduce, ReduceHandle_Allreduce, engine_Allreduce.
  destruct (invoke prepare_fun m) as [[buf u]|] eqn:Hm; [|done].
  cbn [mbind option_bind deref assign as_bytes the_buffer sendrecvbuf_ private].
  specialize (Hprep _ eq_refl). cbn [sendrecvbuf_] in Hprep.
  destruct (combine_peers_bytes reduce Hlaws elem_size count peers buf Hprep Hpeers)
    as (-> & r & -> & Hlr).
  cbn [fmap option_fmap option_map mbind option_bind].
  rewrite <- Hlr. by rewrite vector_of_bytes_vector_bytes.
Qed.

Lemma Reducer_Allreduce_elementwise_witness :
  let peers := [[x05; x01]; [x02; x0b; x00]] in
  let m : caller byte unit := Caller [x03; x09; x01] tt in
  let prepare_fun := Some (prepare_first x04) in
  (layout_laws byte
   ∧ (∀ m', invoke prepare_fun m = Some m' → 2 ≤ length (sendrecvbuf_ m'))
   ∧ Forall (fun p : list byte => 2 ≤ length p) peers)
  ∧ Reducer_Allreduce byte_max
      (ReduceHandle_Allreduce (NoCachedResult (vector_bytes <$> peers)))
      the_buffer 2 prepare_fun m
    = engine_Allreduce (NoCachedResult peers) the_buffer elem_size 2
        (op.Reducer byte_max) prepare_fun m.
Proof.
  intros peers m prepare_fun.
  assert (∀ m', invoke prepare_fun m = Some m' → 2 ≤ length (sendrecvbuf_ m'))
    as Hprep by (intros m' [= <-]; cbv; lia).
  assert (Forall (fun p : list byte => 2 ≤ length p) peers) as Hpeers
    by (repeat constructor; cbv; lia).
  split; [split; [exact char_layout_laws|split; [exact Hprep|exact Hpeers]]|].
  apply (Reducer_Allreduce_elementwise byte_max peers 2 prepare_fun m);
    [exact char_layout_laws | exact Hprep | exact Hpeers].
Defined.

Example Reducer_Allreduce_bytes :
  Reducer_Allreduce byte_max
    (ReduceHandle_Allreduce (NoCachedResult [[x05; x01]; [x02; x0b; x00]]))
    the_buffer 2 (Some (prepare_first x04)) (Caller [x03; x09; x01] tt)
  = Some (Caller [x05; x0b; x01] tt).
Proof. vm_compute. reflexivity. Qed.

(** ** Sums over all participants *)

Local Open Scope Z_scope.

(** X16.  Combining a buffer with the buffers of any number of peers under
    Sum gives, at every index below count, the sum of all contributions
    reduced once to the type: overflows on the way do not change the
    result.  Elements from count on stay. *)
Theorem Sum_of_all_contributions (t : int_type) (type_nbytes count : nat)
    (peers : list (list Z)) (buf : list Z) :
  (count ≤ length buf)%nat →
  Forall (fun p => (count ≤ length p)%nat) peers →
  Forall (in_range t) buf →
  ∃ r,
    combine_peers (op.Reducer (op.Sum.Reduce (Integral t))) type_nbytes count
      peers buf = Some r
    ∧ length r = length buf
    ∧ (∀ i b, (i < count)%nat → buf !! i = Some b →
              r !! i = Some (wrap t (b + column_sum i peers)))
    ∧ (∀ i, (count ≤ i)%nat → r !! i = buf !! i).
Proof.
  intros Hbuf Hpeers Hrange.
  assert (∀ buf0 : list Z, (count ≤ length buf0)%nat →
            ∃ r,
              combine_peers (op.Reducer (op.Sum.Reduce (Integral t)))
                type_nbytes count peers buf0 = Some r
              ∧ length r = length buf0
              ∧ (∀ i b, (i < count)%nat → buf0 !! i = Some b →
                        wrap t <$> (r !! i) = Some (wrap t (b + column_sum i peers)))
              ∧ (∀ i, (count ≤ i)%nat → r !! i = buf0 !! i)
              ∧ (peers ≠ [] → ∀ i x, (i < count)%nat → r !! i = Some x →
                   in_range t x)) as Hgen.
  { clear buf Hbuf Hrange.
    induction Hpeers as [|p peers Hp _ IH]; intros buf Hbuf.
    - exists buf. cbn [combine_peers column_sum foldr].
      split; [done|]. split; [done|]. split; [|split; [done|done]].
      intros i b Hi Hb. cbn [dval]. rewrite Hb. simpl. by rewrite Z.add_0_r.
    - cbn [combine_peers].
      destruct (Reducer_spec (op.Sum.Reduce (Integral t)) p buf (Z.of_nat count)
                  {| type_size := type_nbytes |})
        as (buf' & -> & Hlen & Hin & Hout);
        [rewrite Nat2Z.id; cbn [dval]; lia..|].
      cbn [mbind option_bind snd]. rewrite Nat2Z.id in Hin, Hout.
      cbn [dval] in *.
      destruct (IH buf' ltac:(lia)) as (r & Hr & Hlr & Hsum & Hrest & Hrng).
      exists r. split; [done|]. split; [lia|]. split; [|split].
      + intros i b Hi Hb.
        destruct (lookup_lt_is_Some_2 p i ltac:(lia)) as [s Hs].
        rewrite (Hsum i _ Hi (Hin i b s Hi Hb Hs)).
        cbn [column_sum foldr]. rewrite Hs. cbn [default].
        unfold op.Sum.Reduce. simpl. rewrite wrap_add_l. do 2 f_equal.
        unfold column_sum. lia.
      + intros i Hi. by rewrite Hrest, Hout.
      + intros _ i x Hi Hx. destruct peers as [|q peers].
        * cbn [combine_peers] in Hr. injection Hr as <-.
          destruct (lookup_lt_is_Some_2 buf i ltac:(lia)) as [b Hb].
          destruct (lookup_lt_is_Some_2 p i ltac:(lia)) as [s Hs].
          rewrite (Hin i b s Hi Hb Hs) in Hx. injection Hx as <-.
          apply wrap_in_range.
        * by apply (Hrng ltac:(done) i x Hi Hx). }
  destruct (Hgen buf Hbuf) as (r & Hr & Hlr & Hsum & Hrest & Hrng).
  exists r. split; [done|]. split; [done|]. split; [|done].
  intros i b Hi Hb. specialize (Hsum i b Hi Hb).
  destruct (r !! i) as [x|] eqn:Hx; [|done].
  simpl in Hsum. injection Hsum as Hsum. rewrite <- Hsum. f_equal.
  symmetry. apply wrap_small.
  destruct peers as [|q peers].
  - cbn [combine_peers] in Hr. injection Hr as <-.
    by apply (Forall_lookup_1 _ _ _ _ Hrange Hx).
  - by apply (Hrng ltac:(done) i x Hi Hx).
Qed.

Lemma Sum_of_all_contributions_witness :
  let peers := [[1; 10]; [-1; 20]; [5; 30; 7]] in
  let buf := [2147483647; 0; 9] in
  ((2 ≤ length buf)%nat
   ∧ Forall (fun p : list Z => (2 ≤ length p)%nat) peers
   ∧ Forall (in_range Int) buf)
  ∧ ∃ r,
      combine_peers (op.Reducer (op.Sum.Reduce (Integral Int))) 4 2 peers buf
      = Some r
      ∧ length r = length buf
      ∧ (∀ i b, (i < 2)%nat → buf !! i = Some b →
                r !! i = Some (wrap Int (b + column_sum i peers)))
      ∧ (∀ i, (2 ≤ i)%nat → r !! i = buf !! i).
Proof.
  intros peers buf.
  assert (Forall (fun p : list Z => (2 ≤ length p)%nat) peers) as Hpeers
    by (repeat constructor; cbv; lia).
  assert (Forall (in_range Int) buf) as Hrange
    by (repeat constructor; cbv; discriminate).
  split; [split; [cbv; lia|split; [exact Hpeers|exact Hrange]]|].
  apply (Sum_of_all_contributions Int 4 2 peers buf);
    [cbv; lia | exact Hpeers | exact Hrange].
Defined.

Example Sum_wraps_only_once :
  combine_peers (op.Reducer (op.Sum.Reduce (Integral Int))) 4 2
    [[1; 10]; [-1; 20]; [5; 30; 7]] [2147483647; 0; 9]
  = Some [-2147483644; 60; 9].
Proof. vm_compute. reflexivity. Qed.
